(** * The compaction scheduler of [bgs/compact.go]

    A shallow embedding of the deduplicating work queue, the status
    tracker, the worker loop ([Run], [CompactNext]), the enqueue API and
    the batch driver ([runRepoCompaction]), with the properties the
    specification states about them. *)

From stdpp Require Import gmap strings list.
From Stdlib Require Import ZArith Lia.

Local Open Scope Z_scope.
Set Warnings "-clear-no-such-hyp".

(** ** Data model *)

(** [models.Uid] is an unsigned integer identifier (it is printed with
    [%d]); nothing in this file does arithmetic on it. *)
Abbreviation Uid := N (only parsing).

(** [type queueItem struct { uid models.Uid; fast bool }] *)
Record queueItem : Type := QueueItem { uid : Uid; fast : bool }.

(** [type queue struct { q []queueItem; members map[models.Uid]struct{}; lk sync.Mutex }].
    The map with empty-struct values is a set of keys.  The mutex makes
    every method one critical section, so a method is one atomic state
    transformer. *)
Record queue : Type := Queue { q : list queueItem; members : gset Uid }.

(** The queue that [NewCompactor] allocates: a nil slice and an empty map. *)
Definition new_queue : queue := {| q := []; members := ∅ |}.

(** ** Queue methods *)

Definition Append (u : Uid) (f : bool) (Q : queue) : queue :=
  if decide (u ∈ members Q) then Q
  else {| q := q Q ++ [QueueItem u f]; members := {[u]} ∪ members Q |}.

Definition Prepend (u : Uid) (f : bool) (Q : queue) : queue :=
  if decide (u ∈ members Q) then Q
  else {| q := QueueItem u f :: q Q; members := {[u]} ∪ members Q |}.

Definition Has (u : Uid) (Q : queue) : bool := bool_decide (u ∈ members Q).

(** The [for i, item := range q.q] loop of [Remove]: the first entry whose
    uid matches is cut out ([append(q.q[:i], q.q[i+1:]...)]), then [break]. *)
Fixpoint remove_first (u : Uid) (l : list queueItem) : list queueItem :=
  match l with
  | [] => []
  | it :: l' => if decide (uid it = u) then l' else it :: remove_first u l'
  end.

Definition Remove (u : Uid) (Q : queue) : queue :=
  if decide (u ∈ members Q)
  then {| q := remove_first u (q Q); members := members Q ∖ {[u]} |}
  else Q.

(** [Pop] returns [(nil, false)] on an empty slice, modelled as [None]. *)
Definition Pop (Q : queue) : option queueItem * queue :=
  match q Q with
  | [] => (None, Q)
  | it :: l => (Some it, {| q := l; members := members Q ∖ {[uid it]} |})
  end.

(** Sequences of queue operations. *)
Inductive queue_op : Type :=
| OpAppend (u : Uid) (f : bool)
| OpPrepend (u : Uid) (f : bool)
| OpRemove (u : Uid)
| OpPop.

Definition apply_op (Q : queue) (o : queue_op) : queue :=
  match o with
  | OpAppend u f => Append u f Q
  | OpPrepend u f => Prepend u f Q
  | OpRemove u => Remove u Q
  | OpPop => snd (Pop Q)
  end.

Definition run_ops (ops : list queue_op) (Q : queue) : queue :=
  foldl apply_op Q ops.

(** [n] successive calls of [Pop], collecting the items that were found. *)
Fixpoint pop_n (n : nat) (Q : queue) : list queueItem * queue :=
  match n with
  | O => ([], Q)
  | S n' =>
      match Pop Q with
      | (Some it, Q') => let '(its, Q'') := pop_n n' Q' in (it :: its, Q'')
      | (None, Q') => pop_n n' Q'
      end
  end.

Definition append_all (items : list queueItem) (Q : queue) : queue :=
  foldl (λ Q it, Append (uid it) (fast it) Q) Q items.

(** The representation invariant of the data model: the entries have
    pairwise distinct uids and the membership set is exactly the set of
    uids with an entry. *)
Definition queue_inv (Q : queue) : Prop :=
  NoDup (uid <$> q Q) ∧ ∀ u, u ∈ members Q ↔ u ∈ uid <$> q Q.

(** ** Collaborators and errors *)

(** The fields of [User] that this file reads ([user.ID], [user.Did]). *)
Record User : Type := { ID : Uid; Did : string }.

(** [carstore.CompactionTarget]: declared in package [carstore]; only
    [Usr] is read here. *)
Record CompactionTarget : Type := { Usr : Uid; NumShards : Z }.

(** Go [error] values.  [errNoReposToCompact] is the package-level
    sentinel, compared by identity in [Run]; the three wrappers are the
    three [fmt.Errorf] calls that wrap a cause with [%w]; [errExternal] is whatever a
    collaborator returns. *)
Inductive error : Type :=
| errNoReposToCompact
| errExternal (msg : string)
| errGetUser (u : Uid) (cause : error)
| errCompactShards (u : Uid) (cause : error)
| errGetRepos (cause : error).

(** [err == errNoReposToCompact] *)
Definition is_errNoReposToCompact (e : error) : bool :=
  match e with errNoReposToCompact => true | _ => false end.

(** A Go [(value, error)] pair with [err != nil] or [err == nil]. *)
Inductive result (A : Type) : Type :=
| Success (a : A)
| Failure (e : error).
Arguments Success {A} a.
Arguments Failure {A} e.

(** [chan struct{}].  A nil channel is [None].  A receive on a channel is
    ready when the channel is closed or a sender is waiting; a receive on
    a nil channel is never ready. *)
Record chan : Type := { closed : bool; senders : nat }.

Definition recv_ready (c : option chan) : bool :=
  match c with
  | None => false
  | Some ch => closed ch || bool_decide (senders ch ≠ 0%nat)
  end.

(** [repos[:lim]] under the guard [lim > 0 && len(repos) > lim]. *)
Definition truncate (lim : Z) (repos : list CompactionTarget) : list CompactionTarget :=
  if decide (0 < lim ∧ lim < Z.of_nat (length repos))
  then take (Z.to_nat lim) repos
  else repos.

(** ** The scheduler *)

Section Model.

(** [Stats] is [carstore.CompactionStats]; a pointer to it is an
    [option Stats].  [W] is the state of everything outside this file:
    the user table, the car store, the clock and the caller's context. *)
Context {Stats W : Type}.

(** The collaborators of [*BGS] used here.  Each call may change the
    outside state.  [ctx_done] tells whether the context handed to
    [runRepoCompaction] has been cancelled ([<-ctx.Done()] is ready). *)
Class BGS : Type := {
  lookupUserByUID : Uid → W → result User * W;
  CompactUserShards : Uid → bool → W → result (option Stats) * W;
  GetCompactionTargets : Z → W → result (list CompactionTarget) * W;
  ctx_done : W → bool
}.

Context {bgs : BGS}.

(** [type CompactorState struct] *)
Record CompactorState : Type := {
  latestUID : Uid;
  latestDID : string;
  status : string;
  stats : option Stats
}.

(** [type Compactor struct].  The queue pointer is never nil: the
    constructor allocates it and nothing reassigns it.  [state] and [exit]
    are a pointer and a channel, either of which may be nil. *)
Record Compactor : Type := {
  c_q : queue;
  state : option CompactorState;
  exit : option chan
}.

Definition NewCompactor : Compactor :=
  {| c_q := new_queue; state := None; exit := None |}.

(** [type compactionStats struct].  A nil [Completed] map reads as the
    empty map. *)
Record compactionStats : Type := {
  Completed : gmap Uid (option Stats);
  Targets : list CompactionTarget
}.

(** Log lines.  The elapsed durations that the source adds to them come
    from the wall clock and are left out. *)
Inductive log_entry : Type :=
| LogExiting
| LogNoRepos
| LogFailedCompact (e : error) (st : CompactorState)
| LogCompacted (st : CompactorState)
| LogEnqueueRepo (did : string) (u : Uid) (f : bool)
| LogEnqueueAll (lim shardCount : Z) (f : bool)
| LogEnqueueAllDone (lim shardCount : Z) (f : bool)
| LogStartCompaction
| LogShardsFailed (u : Uid) (e : error)
| LogProgress (n : Z)
| LogTotal (n : Z).

(** What the code does to the outside, in program order. *)
Inductive event : Type :=
| ESetState (st : CompactorState)
| ELookup (u : Uid)
| ECompact (u : Uid) (f : bool)
| ETargets (shardCount : Z)
| EObserve
| ELog (l : log_entry)
| ESleep (ms : Z).

Record Sys : Type := { comp : Compactor; world : W; trace : list event }.

(** A computation either returns or panics (a nil dereference); a panic
    in the worker goroutine is not recovered anywhere in the file. *)
Inductive outcome (A : Type) : Type :=
| Done (a : A) (s : Sys)
| Panic (s : Sys).
Arguments Done {A} a s.
Arguments Panic {A} s.

Definition M (A : Type) : Type := Sys → outcome A.

Definition ret {A} (a : A) : M A := λ s, Done a s.

Definition bind {A B} (m : M A) (k : A → M B) : M B :=
  λ s, match m s with
       | Done a s' => k a s'
       | Panic s' => Panic s'
       end.

Definition panic {A} : M A := λ s, Panic s.

Definition emit (e : event) : M unit :=
  λ s, Done tt {| comp := comp s; world := world s; trace := trace s ++ [e] |}.

Definition get_comp : M Compactor := λ s, Done (comp s) s.

Definition put_comp (c : Compactor) : M unit :=
  λ s, Done tt {| comp := c; world := world s; trace := trace s |}.

Definition get_world : M W := λ s, Done (world s) s.

(** A collaborator call: it is recorded and it moves the outside state. *)
Definition call {A} (e : event) (f : W → result A * W) : M (result A) :=
  λ s, let '(r, w) := f (world s) in
       Done r {| comp := comp s; world := w; trace := trace s ++ [e] |}.

Local Notation "'let!' x ':=' m 'in' k" := (bind m (λ x, k))
  (at level 10, x pattern, m at level 100, k at level 200).
Local Notation "m ';;' k" := (bind m (λ _, k))
  (at level 100, k at level 200, right associativity).

(** *** Status tracker *)

(** [c.state.latestUID = uid] and the three writes after it: a nil
    [c.state] panics at the first one. *)
Definition SetState (u : Uid) (did st : string) (sts : option Stats) : M unit :=
  let! c := get_comp in
  match state c with
  | None => panic
  | Some _ =>
      let new := {| latestUID := u; latestDID := did; status := st; stats := sts |} in
      put_comp {| c_q := c_q c; state := Some new; exit := exit c |} ;;
      emit (ESetState new)
  end.

(** [GetState] builds a fresh struct from the four fields. *)
Definition GetState : M CompactorState :=
  let! c := get_comp in
  match state c with
  | None => panic
  | Some cur =>
      ret {| latestUID := latestUID cur; latestDID := latestDID cur;
             status := status cur; stats := stats cur |}
  end.

(** *** Queue access through the compactor *)

Definition with_queue {A} (f : queue → A * queue) : M A :=
  let! c := get_comp in
  let '(a, Q) := f (c_q c) in
  put_comp {| c_q := Q; state := state c; exit := exit c |} ;;
  ret a.

Definition q_Append (u : Uid) (f : bool) : M unit :=
  with_queue (λ Q, (tt, Append u f Q)).

Definition q_Pop : M (option queueItem) := with_queue Pop.

(** *** CompactNext *)

(** The returned pair is a state pointer and an error; [None] is nil. *)
Definition CompactNext : M (option CompactorState * option error) :=
  let! item := q_Pop in
  match item with
  | None => ret (None, Some errNoReposToCompact)
  | Some item =>
      SetState (uid item) "unknown" "getting_user" None ;;
      let! user := call (ELookup (uid item)) (lookupUserByUID (uid item)) in
      match user with
      | Failure err =>
          SetState (uid item) "unknown" "failed_getting_user" None ;;
          ret (None, Some (errGetUser (uid item) err))
      | Success user =>
          SetState (uid item) (Did user) "compacting" None ;;
          let! st := call (ECompact (uid item) (fast item))
                          (CompactUserShards (uid item) (fast item)) in
          match st with
          | Failure err =>
              SetState (uid item) (Did user) "failed_compacting" None ;;
              ret (None, Some (errCompactShards (uid item) err))
          | Success st =>
              emit EObserve ;;
              SetState (uid item) (Did user) "done" st ;;
              let! final := GetState in
              ret (Some final, None)
          end
      end
  end.

(** *** Run *)

(** Reading a field through a state pointer. *)
Definition deref (p : option CompactorState) : M CompactorState :=
  match p with
  | None => panic
  | Some st => ret st
  end.

Inductive loop_ctl : Type := Continue | Return.

(** One pass through the body of the [for] loop of [Run]. *)
Definition Run_iter : M loop_ctl :=
  let! c := get_comp in
  if recv_ready (exit c) then
    emit (ELog LogExiting) ;; ret Return
  else
    let! r := CompactNext in
    match snd r with
    | Some err =>
        if is_errNoReposToCompact err then
          emit (ELog LogNoRepos) ;; emit (ESleep 5000) ;; ret Continue
        else
          let! st := deref (fst r) in
          emit (ELog (LogFailedCompact err st)) ;;
          emit (ESleep 100) ;;
          ret Continue
    | None =>
        let! st := deref (fst r) in
        emit (ELog (LogCompacted st)) ;;
        ret Continue
    end.

(** Where the loop stands after at most [fuel] passes. *)
Inductive run_result : Type :=
| Returned (s : Sys)
| Crashed (s : Sys)
| Looping (s : Sys).

Fixpoint Run (fuel : nat) (s : Sys) : run_result :=
  match fuel with
  | O => Looping s
  | S fuel' =>
      match Run_iter s with
      | Panic s' => Crashed s'
      | Done Return s' => Returned s'
      | Done Continue s' => Run fuel' s'
      end
  end.

(** *** Enqueue API *)

Definition EnqueueRepo (user : User) (f : bool) : M unit :=
  emit (ELog (LogEnqueueRepo (Did user) (ID user) f)) ;;
  q_Append (ID user) f.

(** The [for _, r := range repos] loop of [EnqueueAllRepos]. *)
Fixpoint enqueue_each (f : bool) (repos : list CompactionTarget) : M unit :=
  match repos with
  | [] => ret tt
  | r :: repos' => q_Append (Usr r) f ;; enqueue_each f repos'
  end.

(** The returned [error] is [None] for nil. *)
Definition EnqueueAllRepos (lim shardCount : Z) (f : bool) : M (option error) :=
  let shardCount := if decide (shardCount = 0) then 50 else shardCount in
  emit (ELog (LogEnqueueAll lim shardCount f)) ;;
  let! repos := call (ETargets shardCount) (GetCompactionTargets shardCount) in
  match repos with
  | Failure err => ret (Some (errGetRepos err))
  | Success repos =>
      let repos := truncate lim repos in
      enqueue_each f repos ;;
      emit (ELog (LogEnqueueAllDone lim shardCount f)) ;;
      ret None
  end.

(** *** Batch driver *)

(** The [for i, r := range repos] loop of [runRepoCompaction], from index
    [i] on.  The boolean tells whether the loop was left through the
    [<-ctx.Done()] branch. *)
Fixpoint compact_each (f : bool) (i : nat) (repos : list CompactionTarget)
    (results : gmap Uid (option Stats)) : M (bool * gmap Uid (option Stats)) :=
  match repos with
  | [] => ret (false, results)
  | r :: repos' =>
      let! w := get_world in
      if ctx_done w then ret (true, results)
      else
        let! st := call (ECompact (Usr r) f) (CompactUserShards (Usr r) f) in
        match st with
        | Failure err =>
            emit (ELog (LogShardsFailed (Usr r) err)) ;;
            compact_each f (S i) repos' results
        | Success st =>
            emit EObserve ;;
            let results := <[Usr r := st]> results in
            (if decide (Z.of_nat i `mod` 100 = 0)
             then emit (ELog (LogProgress (Z.of_nat i + 1)))
             else ret tt) ;;
            compact_each f (S i) repos' results
        end
  end.

(** The returned pair is a [compactionStats] pointer and an error. *)
Definition runRepoCompaction (lim : Z) (dry f : bool)
    : M (option compactionStats * option error) :=
  emit (ELog LogStartCompaction) ;;
  let! repos := call (ETargets 50) (GetCompactionTargets 50) in
  match repos with
  | Failure err => ret (None, Some (errGetRepos err))
  | Success repos =>
      let repos := truncate lim repos in
      if dry then ret (Some {| Completed := ∅; Targets := repos |}, None)
      else
        let! r := compact_each f 0 repos ∅ in
        let '(cancelled, results) := r in
        if (cancelled : bool) then
          ret (Some {| Completed := results; Targets := repos |}, None)
        else
          emit (ELog (LogTotal (Z.of_nat (length repos)))) ;;
          ret (Some {| Completed := results; Targets := repos |}, None)
  end.

(** *** Everything that can happen to a compactor *)

(** The entry points of the file, as calls whose results are dropped. *)
Inductive api_call : Type :=
| CallQueue (o : queue_op)
| CallSetState (u : Uid) (did st : string) (sts : option Stats)
| CallGetState
| CallCompactNext
| CallRunIter
| CallEnqueueRepo (user : User) (f : bool)
| CallEnqueueAllRepos (lim shardCount : Z) (f : bool)
| CallRunRepoCompaction (lim : Z) (dry f : bool).

Definition exec (a : api_call) : M unit :=
  match a with
  | CallQueue o => with_queue (λ Q, (tt, apply_op Q o))
  | CallSetState u did st sts => SetState u did st sts
  | CallGetState => GetState ;; ret tt
  | CallCompactNext => CompactNext ;; ret tt
  | CallRunIter => Run_iter ;; ret tt
  | CallEnqueueRepo user f => EnqueueRepo user f
  | CallEnqueueAllRepos lim shardCount f => EnqueueAllRepos lim shardCount f ;; ret tt
  | CallRunRepoCompaction lim dry f => runRepoCompaction lim dry f ;; ret tt
  end.

Definition init (w : W) : Sys :=
  {| comp := NewCompactor; world := w; trace := [] |}.

(** The states a process can be in that built its compactor with
    [NewCompactor]: any interleaving of completed calls, with the outside
    state free to change in between. *)
Inductive reachable : Sys → Prop :=
| reach_init w : reachable (init w)
| reach_call a s s' : reachable s → exec a s = Done tt s' → reachable s'
| reach_world s w :
    reachable s → reachable {| comp := comp s; world := w; trace := trace s |}.

(** *** Reference semantics of the batch loop *)

(** The compaction calls the batch loop makes, one after the other, each
    with its result, up to the first candidate before which the context
    is found cancelled.  No driver logic: only the collaborator. *)
Fixpoint attempts (f : bool) (repos : list CompactionTarget) (w : W)
    : list (CompactionTarget * result (option Stats)) :=
  match repos with
  | [] => []
  | r :: repos' =>
      if ctx_done w then []
      else let '(res, w') := CompactUserShards (Usr r) f w in
           (r, res) :: attempts f repos' w'
  end.

(** The outside state after those calls. *)
Fixpoint world_after (f : bool) (repos : list CompactionTarget) (w : W) : W :=
  match repos with
  | [] => w
  | r :: repos' =>
      if ctx_done w then w
      else world_after f repos' (snd (CompactUserShards (Usr r) f w))
  end.

(** The map that results from recording, in order, every successful
    attempt under its account and nothing for a failed one. *)
Definition record_successes
    (atts : list (CompactionTarget * result (option Stats)))
    (results : gmap Uid (option Stats)) : gmap Uid (option Stats) :=
  foldl (λ m a, match snd a with
                | Success st => <[Usr (fst a) := st]> m
                | Failure _ => m
                end) results atts.

(** Projections of the trace. *)
Definition compact_call (e : event) : option (Uid * bool) :=
  match e with ECompact u f => Some (u, f) | _ => None end.

Definition shards_failed_log (e : event) : option (Uid * error) :=
  match e with ELog (LogShardsFailed u err) => Some (u, err) | _ => None end.

Definition targets_call (e : event) : option Z :=
  match e with ETargets n => Some n | _ => None end.

Definition attempt_failure (a : CompactionTarget * result (option Stats))
    : option (Uid * error) :=
  match snd a with Failure err => Some (Usr (fst a), err) | Success _ => None end.

(** No write of the status snapshot has happened. *)
Definition no_state_written (t : list event) : Prop :=
  ∀ st, ESetState st ∉ t.

(** *** Reference semantics of bulk enqueueing *)

(** The entries that appending the candidates one by one adds to a queue
    whose membership set is [seen]: one per candidate, in order, leaving
    out every candidate whose account is already a member. *)
Fixpoint new_items (f : bool) (seen : gset Uid) (repos : list CompactionTarget)
    : list queueItem :=
  match repos with
  | [] => []
  | r :: repos' =>
      if decide (Usr r ∈ seen) then new_items f seen repos'
      else QueueItem (Usr r) f :: new_items f ({[Usr r]} ∪ seen) repos'
  end.

(** *** What no call changes *)

(** [s'] has the exit channel of [s]; and if the status pointer of [s] is
    nil, so is that of [s'], and no snapshot write was added. *)
Definition keeps (s s' : Sys) : Prop :=
  exit (comp s') = exit (comp s) ∧
  (state (comp s) = None →
   state (comp s') = None ∧
   (no_state_written (trace s) → no_state_written (trace s'))).

Definition safe {A} (m : M A) : Prop :=
  ∀ s, match m s with
       | Done _ s' => keeps s s'
       | Panic s' => keeps s s'
       end.

(** *** More projections of the trace *)

Definition observation (e : event) : option unit :=
  match e with EObserve => Some tt | _ => None end.

Definition progress_log (e : event) : option Z :=
  match e with ELog (LogProgress n) => Some n | _ => None end.

Definition total_log (e : event) : option Z :=
  match e with ELog (LogTotal n) => Some n | _ => None end.

Definition sleep_of (e : event) : option Z :=
  match e with ESleep ms => Some ms | _ => None end.

Definition lookup_call (e : event) : option Uid :=
  match e with ELookup u => Some u | _ => None end.

Definition attempt_success (a : CompactionTarget * result (option Stats))
    : option (Uid * option Stats) :=
  match snd a with Success st => Some (Usr (fst a), st) | Failure _ => None end.

(** What one pass of [Run] adds to the trace when the queue is empty. *)
Definition idle_pass : list event := [ELog LogNoRepos; ESleep 5000].

(** In every outside state the lookup of [u] and the compaction of [u]
    with flag [f] succeed. *)
Definition always_succeeds (u : Uid) (f : bool) : Prop :=
  (∀ w, ∃ user w', lookupUserByUID u w = (Success user, w')) ∧
  (∀ w, ∃ st w', CompactUserShards u f w = (Success st, w')).

(** A computation keeps the representation invariant of the queue. *)
Definition keeps_queue_inv {A} (m : M A) : Prop :=
  ∀ s, queue_inv (c_q (comp s)) →
       match m s with
       | Done _ s' => queue_inv (c_q (comp s'))
       | Panic s' => queue_inv (c_q (comp s'))
       end.

(** A progress line with number [n] is due when, counting candidates
    from [i], some attempted candidate with an index that is a multiple
    of 100 succeeded, [n] being that index plus one. *)
Definition progress_due (i : nat)
    (atts : list (CompactionTarget * result (option Stats))) (n : Z) : Prop :=
  ∃ j a st, atts !! j = Some a ∧ snd a = Success st ∧
            Z.of_nat (i + j) `mod` 100 = 0 ∧ n = Z.of_nat (i + j) + 1.

(** The stats of the successful attempts for account [u], in order. *)
Definition successes_for (u : Uid)
    (atts : list (CompactionTarget * result (option Stats))) : list (option Stats) :=
  omap (λ a, match snd a with
             | Success st => if decide (Usr (fst a) = u) then Some st else None
             | Failure _ => None
             end) atts.


End Model.

Arguments Done {Stats W A} a s.
Arguments Panic {Stats W A} s.

(** ** A concrete outside world

    Used to run the model on examples.  The outside state counts the
    collaborator calls made so far; the context is cancelled once
    [deadline] calls have been made.  Looking up account 9 fails,
    compacting account 2 fails, and the car store lists the accounts
    1, 2, 3 as candidates. *)

Definition demo_lookup (u : Uid) (w : nat) : result User * nat :=
  (if decide (u = 9%N) then Failure (errExternal "user not found")
   else Success {| ID := u; Did := "did:example:alice" |}, S w).

Definition demo_compact (u : Uid) (f : bool) (w : nat) : result (option N) * nat :=
  (if decide (u = 2%N) then Failure (errExternal "shard unreadable")
   else Success (Some (10 * u)%N), S w).

Definition demo_targets (shardCount : Z) (w : nat)
    : result (list CompactionTarget) * nat :=
  (Success [ {| Usr := 1%N; NumShards := 70 |};
             {| Usr := 2%N; NumShards := 60 |};
             {| Usr := 3%N; NumShards := 55 |} ], S w).

Definition demo_bgs (deadline : nat) : @BGS N nat :=
  {| lookupUserByUID := demo_lookup;
     CompactUserShards := demo_compact;
     GetCompactionTargets := demo_targets;
     ctx_done := λ w, bool_decide (deadline ≤ w)%nat |}.

(** A compactor whose status snapshot has been allocated, holding the
    given queue. *)
Definition demo_compactor (Q : queue) : @Compactor N :=
  {| c_q := Q;
     state := Some {| latestUID := 0%N; latestDID := EmptyString; status := EmptyString; stats := None |};
     exit := None |}.

Definition demo_sys (c : @Compactor N) : @Sys N nat :=
  {| comp := c; world := O; trace := [] |}.

(** The same world with a car store that cannot list candidates. *)
Definition demo_targets_down (shardCount : Z) (w : nat)
    : result (list CompactionTarget) * nat :=
  (Failure (errExternal "car store unavailable"), S w).

Definition demo_bgs_down : @BGS N nat :=
  {| lookupUserByUID := demo_lookup;
     CompactUserShards := demo_compact;
     GetCompactionTargets := demo_targets_down;
     ctx_done := λ _, false |}.

(** The three candidates that [demo_targets] lists. *)
Definition demo_candidates : list CompactionTarget :=
  [ {| Usr := 1%N; NumShards := 70 |};
    {| Usr := 2%N; NumShards := 60 |};
    {| Usr := 3%N; NumShards := 55 |} ].

(** A car store that lists account 1 twice; the first compaction call
    made after the listing succeeds and every later one fails. *)
Definition demo_targets_dup (shardCount : Z) (w : nat)
    : result (list CompactionTarget) * nat :=
  (Success [ {| Usr := 1%N; NumShards := 70 |};
             {| Usr := 1%N; NumShards := 70 |} ], S w).

Definition demo_compact_once (u : Uid) (f : bool) (w : nat) : result (option N) * nat :=
  (if decide (w = 1%nat) then Success (Some 10%N)
   else Failure (errExternal "shard unreadable"), S w).

Definition demo_bgs_dup : @BGS N nat :=
  {| lookupUserByUID := demo_lookup;
     CompactUserShards := demo_compact_once;
     GetCompactionTargets := demo_targets_dup;
     ctx_done := λ _, false |}.



(** * Properties *)

Section Properties.

Context {Stats W : Type} {bgs : @BGS Stats W}.

Local Abbreviation Sys := (@Sys Stats W).
Local Abbreviation CompactorState := (@CompactorState Stats).
Local Abbreviation M := (@M Stats W).

(** The snapshot that a [SetState] call writes. *)
Local Abbreviation snapshot u did stg sts :=
  {| latestUID := u; latestDID := did; status := stg; stats := sts |}.

Ltac unfold_m :=
  unfold bind, ret, panic, emit, call, get_comp, put_comp, get_world, deref in *.

(** ** The queue *)

Lemma queue_inv_new : queue_inv new_queue.
Proof.
  split; simpl; [constructor | intros u; set_solver].
Qed.

Lemma queue_inv_Append u f Q : queue_inv Q → queue_inv (Append u f Q).
Proof.
  intros [Hnd Hmem]. unfold Append.
  destruct (decide (u ∈ members Q)) as [Hin | Hout]; [by split |].
  split; simpl; rewrite fmap_app; simpl.
  - apply NoDup_app. split_and!; [done | | apply NoDup_singleton].
    intros x Hx Hx'. apply list_elem_of_singleton in Hx' as ->.
    by apply Hout, Hmem.
  - intros x. rewrite elem_of_union, elem_of_singleton, elem_of_app,
      list_elem_of_singleton, Hmem. tauto.
Qed.

Lemma queue_inv_Prepend u f Q : queue_inv Q → queue_inv (Prepend u f Q).
Proof.
  intros [Hnd Hmem]. unfold Prepend.
  destruct (decide (u ∈ members Q)) as [Hin | Hout]; [by split |].
  split; simpl.
  - apply NoDup_cons. split; [| done]. intros Hx. by apply Hout, Hmem.
  - intros x. rewrite elem_of_union, elem_of_singleton, elem_of_cons, Hmem. tauto.
Qed.

Lemma remove_first_uids u l :
  NoDup (uid <$> l) →
  NoDup (uid <$> remove_first u l) ∧
  ∀ x, x ∈ uid <$> remove_first u l ↔ x ≠ u ∧ x ∈ uid <$> l.
Proof.
  induction l as [| it l IH]; simpl; intros Hnd.
  - split; [constructor |]. intros x. rewrite elem_of_nil. tauto.
  - apply NoDup_cons in Hnd as [Hhd Htl].
    destruct (decide (uid it = u)) as [<- | Hne].
    + split; [done |]. intros x. rewrite elem_of_cons.
      split; [| tauto]. intros Hx. split; [| tauto]. by intros ->.
    + destruct (IH Htl) as [IHnd IHmem]. split; simpl.
      * apply NoDup_cons. split; [| done]. rewrite IHmem. tauto.
      * intros x. rewrite !elem_of_cons, IHmem.
        split; [intros [-> | ?]; tauto | tauto].
Qed.

Lemma queue_inv_Remove u Q : queue_inv Q → queue_inv (Remove u Q).
Proof.
  intros [Hnd Hmem]. unfold Remove.
  destruct (decide (u ∈ members Q)) as [Hin | Hout]; [| by split].
  destruct (remove_first_uids u (q Q) Hnd) as [Hnd' Hmem'].
  split; simpl; [done |].
  intros x. rewrite elem_of_difference, elem_of_singleton, Hmem', Hmem. tauto.
Qed.

Lemma queue_inv_Pop Q : queue_inv Q → queue_inv (snd (Pop Q)).
Proof.
  intros [Hnd Hmem]. unfold Pop.
  destruct (q Q) as [| it l] eqn:Hq; simpl; [split; by rewrite ?Hq |].
  simpl in Hnd. apply NoDup_cons in Hnd as [Hhd Htl].
  split; simpl; [done |].
  intros x. rewrite elem_of_difference, elem_of_singleton, Hmem.
  simpl. rewrite elem_of_cons. split; [tauto |].
  intros Hx. split; [tauto | by intros ->].
Qed.

Lemma queue_inv_apply_op Q o : queue_inv Q → queue_inv (apply_op Q o).
Proof.
  destruct o; simpl;
    eauto using queue_inv_Append, queue_inv_Prepend, queue_inv_Remove, queue_inv_Pop.
Qed.

Lemma queue_inv_run_ops ops Q : queue_inv Q → queue_inv (run_ops ops Q).
Proof.
  unfold run_ops. revert Q.
  induction ops as [| o ops IH]; simpl; intros Q HQ; [done |].
  by apply IH, queue_inv_apply_op.
Qed.

Lemma queue_inv_length Q : queue_inv Q → length (q Q) = size (members Q).
Proof.
  intros [Hnd Hmem].
  assert (members Q = list_to_set (uid <$> q Q)) as ->.
  { apply set_eq. intros x. by rewrite elem_of_list_to_set. }
  rewrite size_list_to_set by done. by rewrite length_fmap.
Qed.

Lemma Append_present u f Q : u ∈ members Q → Append u f Q = Q.
Proof. intros Hin. unfold Append. by rewrite decide_True. Qed.

Lemma Prepend_present u f Q : u ∈ members Q → Prepend u f Q = Q.
Proof. intros Hin. unfold Prepend. by rewrite decide_True. Qed.

Lemma append_all_fresh items Q :
  queue_inv Q →
  NoDup (uid <$> items) →
  (∀ u, u ∈ uid <$> items → u ∉ members Q) →
  q (append_all items Q) = q Q ++ items ∧
  members (append_all items Q) = list_to_set (uid <$> items) ∪ members Q.
Proof.
  unfold append_all. revert Q.
  induction items as [| [u f] items IH]; simpl; intros Q HQ Hnd Hfresh.
  - rewrite app_nil_r. split; [done | set_solver].
  - apply NoDup_cons in Hnd as [Hhd Htl].
    assert (u ∉ members Q) as Hu by (apply Hfresh; set_solver).
    destruct (IH (Append u f Q)) as [Hq Hm].
    + by apply queue_inv_Append.
    + done.
    + intros x Hx. unfold Append. rewrite decide_False by done. simpl.
      rewrite elem_of_union, elem_of_singleton. intros [-> | Hin]; [done |].
      revert Hin. apply Hfresh. set_solver.
    + rewrite Hq, Hm. unfold Append. rewrite decide_False by done. simpl.
      rewrite <- app_assoc. split; [done | set_solver].
Qed.

Lemma pop_n_all Q : queue_inv Q → pop_n (length (q Q)) Q = (q Q, new_queue).
Proof.
  remember (q Q) as l eqn:Hl. revert Q Hl.
  induction l as [| it l IH]; intros Q Hl HQ; simpl.
  - destruct Q as [ql ms]. simpl in *. subst ql.
    destruct HQ as [_ Hmem]. simpl in Hmem.
    unfold new_queue. do 2 f_equal. apply set_eq. intros x.
    rewrite Hmem. set_solver.
  - pose proof (queue_inv_Pop Q HQ) as HQ'. unfold Pop in *.
    rewrite <- Hl in *. simpl in HQ'.
    by rewrite (IH {| q := l; members := members Q ∖ {[uid it]} |} eq_refl HQ').
Qed.

Lemma Pop_Prepend u f Q :
  u ∉ members Q → Pop (Prepend u f Q) = (Some (QueueItem u f), Q).
Proof.
  intros Hout. unfold Prepend. rewrite decide_False by done.
  unfold Pop. simpl. destruct Q as [ql ms]. simpl in *.
  do 2 f_equal. set_solver.
Qed.

(** C3. Whatever sequence of [Append], [Prepend], [Remove] and [Pop]
    calls is run on the queue of a new compactor, the resulting queue
    has no two entries with the same uid and as many entries as its
    membership set has elements; and an [Append] or [Prepend] for a uid
    that has an entry returns the very same queue, so the entry and its
    [fast] flag are untouched. *)
Theorem queue_dedup_first_writer_wins (ops : list queue_op) :
  let Q := run_ops ops new_queue in
  NoDup (uid <$> q Q) ∧
  length (q Q) = size (members Q) ∧
  ∀ it f, it ∈ q Q → Append (uid it) f Q = Q ∧ Prepend (uid it) f Q = Q.
Proof.
  intros Q.
  assert (queue_inv Q) as HQ by apply queue_inv_run_ops, queue_inv_new.
  split_and!; [apply HQ | by apply queue_inv_length |].
  intros it f Hit.
  assert (uid it ∈ members Q) as Hin.
  { apply HQ. by apply list_elem_of_fmap_2. }
  by rewrite Append_present, Prepend_present.
Qed.

(** The example of the specification: the second [Append] of account 7
    changes nothing, the entry keeps [fast = false]. *)
Lemma queue_dedup_first_writer_wins_witness :
  q (run_ops [OpAppend 7 false; OpAppend 7 true] new_queue) = [QueueItem 7 false] ∧
  Append 7 true (run_ops [OpAppend 7 false] new_queue)
  = run_ops [OpAppend 7 false] new_queue.
Proof.
  split; [by vm_compute |].
  destruct (queue_dedup_first_writer_wins [OpAppend 7 false]) as (_ & _ & Hnoop).
  apply (Hnoop (QueueItem 7 false) true).
  vm_compute. apply list_elem_of_here.
Defined.

(** C8. Appending items with pairwise distinct uids to a new queue and
    then popping as many times returns the items in the order in which
    they were appended and leaves the queue empty; and a [Prepend] of a
    uid that is not a member puts its item in front, so that the next
    [Pop] returns it and leaves the earlier items as they were. *)
Theorem fifo_append_prepend_head (items : list queueItem) :
  NoDup (uid <$> items) →
  let Q := append_all items new_queue in
  q Q = items ∧
  pop_n (length items) Q = (items, new_queue) ∧
  ∀ u f, u ∉ members Q → Pop (Prepend u f Q) = (Some (QueueItem u f), Q).
Proof.
  intros Hnd Q.
  destruct (append_all_fresh items new_queue queue_inv_new Hnd) as [Hq Hm].
  { intros u _. simpl. set_solver. }
  simpl in Hq. fold Q in Hq, Hm.
  assert (queue_inv Q) as HQ.
  { split; [by rewrite Hq |]. intros u. rewrite Hm, Hq. simpl. set_solver. }
  split_and!; [done | | by intros; apply Pop_Prepend].
  rewrite <- Hq at 1 2. by apply pop_n_all.
Qed.

Lemma fifo_append_prepend_head_witness :
  let items := [QueueItem 1 false; QueueItem 2 true; QueueItem 3 false] in
  pop_n 3 (append_all items new_queue) = (items, new_queue) ∧
  Pop (Prepend 4 true (append_all items new_queue))
  = (Some (QueueItem 4 true), append_all items new_queue).
Proof.
  intros items.
  assert (NoDup (uid <$> items)) as Hnd.
  { simpl. repeat (apply NoDup_cons; split; [set_solver |]). constructor. }
  destruct (fifo_append_prepend_head items Hnd) as (_ & Hpop & Hpre).
  split; [exact Hpop |]. apply Hpre. vm_compute. set_solver.
Defined.

(** ** The per-item state machine on an allocated status snapshot *)

Lemma SetState_allocated u did stg sts (s : Sys) cur :
  state (comp s) = Some cur →
  SetState u did stg sts s =
  Done tt {| comp := {| c_q := c_q (comp s);
                        state := Some (snapshot u did stg sts);
                        exit := exit (comp s) |};
             world := world s;
             trace := trace s ++ [ESetState (snapshot u did stg sts)] |}.
Proof. intros Hst. unfold SetState. unfold_m. by rewrite Hst. Qed.

Lemma SetState_nil u did stg sts (s : Sys) :
  state (comp s) = None → SetState u did stg sts s = Panic s.
Proof. intros Hst. unfold SetState. unfold_m. by rewrite Hst. Qed.

Lemma CompactNext_empty (s : Sys) :
  q (c_q (comp s)) = [] →
  CompactNext s = Done (None, Some errNoReposToCompact) s.
Proof.
  intros Hq. unfold CompactNext, q_Pop, with_queue, Pop. unfold_m.
  rewrite Hq. destruct s as [[Q st ex] w t]. simpl in *.
  destruct Q as [ql ms]. simpl in *. by subst ql.
Qed.

Lemma CompactNext_allocated (s : Sys) cur it rest :
  state (comp s) = Some cur →
  q (c_q (comp s)) = it :: rest →
  let Q' := {| q := rest; members := members (c_q (comp s)) ∖ {[uid it]} |} in
  let after stg did sts w t :=
    {| comp := {| c_q := Q'; state := Some (snapshot (uid it) did stg sts);
                  exit := exit (comp s) |};
       world := w; trace := trace s ++ t |} in
  let getting := ESetState (snapshot (uid it) "unknown" "getting_user" None) in
  match lookupUserByUID (uid it) (world s) with
  | (Failure err, w1) =>
      CompactNext s =
      Done (None, Some (errGetUser (uid it) err))
        (after "failed_getting_user" "unknown" None w1
           [getting; ELookup (uid it);
            ESetState (snapshot (uid it) "unknown" "failed_getting_user" None)])
  | (Success user, w1) =>
      let compacting := ESetState (snapshot (uid it) (Did user) "compacting" None) in
      match CompactUserShards (uid it) (fast it) w1 with
      | (Failure err, w2) =>
          CompactNext s =
          Done (None, Some (errCompactShards (uid it) err))
            (after "failed_compacting" (Did user) None w2
               [getting; ELookup (uid it); compacting; ECompact (uid it) (fast it);
                ESetState (snapshot (uid it) (Did user) "failed_compacting" None)])
      | (Success sts, w2) =>
          CompactNext s =
          Done (Some (snapshot (uid it) (Did user) "done" sts), None)
            (after "done" (Did user) sts w2
               [getting; ELookup (uid it); compacting; ECompact (uid it) (fast it);
                EObserve;
                ESetState (snapshot (uid it) (Did user) "done" sts)])
      end
  end.
Proof.
  intros Hst Hq. simpl.
  unfold CompactNext, q_Pop, with_queue, Pop, SetState, GetState. unfold_m.
  rewrite Hq. simpl. rewrite Hst. simpl.
  destruct (lookupUserByUID (uid it) (world s)) as [[user | err] w1]; simpl.
  - destruct (CompactUserShards (uid it) (fast it) w1) as [[sts | err] w2]; simpl;
      by rewrite <- ?app_assoc.
  - by rewrite <- ?app_assoc.
Qed.

(** ** A failed item and the worker loop *)

Lemma CompactNext_error_nil (s s' : Sys) st err :
  CompactNext s = Done (st, Some err) s' → st = None.
Proof.
  unfold CompactNext, q_Pop, with_queue, Pop, SetState, GetState. unfold_m.
  destruct (q (c_q (comp s))) as [| it rest]; simpl; [congruence |].
  destruct (state (comp s)); simpl; [| congruence].
  destruct (lookupUserByUID (uid it) (world s)) as [[user | e] w1]; simpl;
    [| congruence].
  destruct (CompactUserShards (uid it) (fast it) w1) as [[sts | e] w2]; simpl;
    congruence.
Qed.

Lemma Run_iter_failure_crashes (s s' : Sys) st err :
  recv_ready (exit (comp s)) = false →
  CompactNext s = Done (st, Some err) s' →
  is_errNoReposToCompact err = false →
  Run_iter s = Panic s'.
Proof.
  intros Hexit Hnext Herr.
  pose proof (CompactNext_error_nil _ _ _ _ Hnext) as ->.
  unfold Run_iter. unfold_m. rewrite Hexit, Hnext. simpl. by rewrite Herr.
Qed.

(** ** Nothing assigns the exit channel or allocates the snapshot *)

Lemma keeps_refl (s : Sys) : keeps s s.
Proof. by split. Qed.

Lemma keeps_trans (s1 s2 s3 : Sys) : keeps s1 s2 → keeps s2 s3 → keeps s1 s3.
Proof.
  intros [He1 Hs1] [He2 Hs2]. split; [congruence |].
  intros Hnil. destruct (Hs1 Hnil) as [Hnil2 Ht2].
  destruct (Hs2 Hnil2) as [Hnil3 Ht3]. auto.
Qed.

Lemma safe_ret {A} (a : A) : safe (ret a : M A).
Proof. intros s. apply keeps_refl. Qed.

Lemma safe_panic {A} : safe (@panic Stats W A).
Proof. intros s. apply keeps_refl. Qed.

Lemma safe_bind {A B} (m : M A) (k : A → M B) :
  safe m → (∀ a, safe (k a)) → safe (bind m k).
Proof.
  intros Hm Hk s. unfold bind. specialize (Hm s).
  destruct (m s) as [a s1 | s1]; [| done].
  specialize (Hk a s1). destruct (k a s1); eauto using keeps_trans.
Qed.

Lemma safe_get_comp : safe (@get_comp Stats W).
Proof. intros s. apply keeps_refl. Qed.

Lemma safe_get_world : safe (@get_world Stats W).
Proof. intros s. apply keeps_refl. Qed.

Lemma safe_emit e : (∀ st, e ≠ ESetState st) → safe (@emit Stats W e).
Proof.
  intros He s. split; simpl; [done |]. intros Hnil. split; [done |].
  intros Ht st Hin. apply elem_of_app in Hin as [Hin | Hin]; [by eapply Ht |].
  apply list_elem_of_singleton in Hin. by eapply He.
Qed.

Lemma safe_call {A} e (f : W → result A * W) :
  (∀ st, e ≠ ESetState st) → safe (call e f : M (result A)).
Proof.
  intros He s. unfold call. destruct (f (world s)) as [r w].
  split; simpl; [done |]. intros Hnil. split; [done |].
  intros Ht st Hin. apply elem_of_app in Hin as [Hin | Hin]; [by eapply Ht |].
  apply list_elem_of_singleton in Hin. by eapply He.
Qed.

Lemma safe_with_queue {A} (f : queue → A * queue) : safe (with_queue f : M A).
Proof.
  intros s. unfold with_queue. unfold_m.
  destruct (f (c_q (comp s))) as [a Q]. by split.
Qed.

Lemma safe_SetState u did stg sts : safe (SetState u did stg sts : M unit).
Proof.
  intros s. unfold SetState. unfold_m.
  destruct (state (comp s)) eqn:Hst; [| apply keeps_refl].
  split; simpl; [done | congruence].
Qed.

Lemma safe_GetState : safe (@GetState Stats W).
Proof.
  intros s. unfold GetState. unfold_m.
  destruct (state (comp s)); apply keeps_refl.
Qed.

Lemma safe_deref p : safe (@deref Stats W p).
Proof. destruct p; [apply safe_ret | apply safe_panic]. Qed.

Ltac safe_step :=
  match goal with
  | |- safe (bind _ _) => apply safe_bind; [| intros ?]
  | |- safe (ret _) => apply safe_ret
  | |- safe panic => apply safe_panic
  | |- safe (emit _) => apply safe_emit; by intros ?
  | |- safe (call _ _) => apply safe_call; by intros ?
  | |- safe get_comp => apply safe_get_comp
  | |- safe get_world => apply safe_get_world
  | |- safe (with_queue _) => apply safe_with_queue
  | |- safe (SetState _ _ _ _) => apply safe_SetState
  | |- safe GetState => apply safe_GetState
  | |- safe (deref _) => apply safe_deref
  | |- safe (match ?x with _ => _ end) => destruct x
  end.

Lemma safe_CompactNext : safe (@CompactNext Stats W bgs).
Proof. unfold CompactNext, q_Pop. repeat safe_step. Qed.

Lemma safe_Run_iter : safe (@Run_iter Stats W bgs).
Proof.
  unfold Run_iter. repeat safe_step; try apply safe_CompactNext;
    repeat safe_step.
Qed.

Lemma safe_enqueue_each f repos : safe (enqueue_each f repos : M unit).
Proof.
  induction repos as [| r repos IH]; simpl; [apply safe_ret |].
  unfold q_Append. by repeat safe_step.
Qed.

Lemma safe_EnqueueRepo user f : safe (EnqueueRepo user f : M unit).
Proof. unfold EnqueueRepo, q_Append. repeat safe_step. Qed.

Lemma safe_EnqueueAllRepos lim shardCount f :
  safe (@EnqueueAllRepos Stats W bgs lim shardCount f).
Proof.
  unfold EnqueueAllRepos. repeat safe_step; try apply safe_enqueue_each;
    repeat safe_step.
Qed.

Lemma safe_compact_each f repos :
  ∀ i results, safe (@compact_each Stats W bgs f i repos results).
Proof.
  induction repos as [| r repos IH]; simpl; intros i results; [apply safe_ret |].
  repeat safe_step; try apply IH; repeat safe_step.
Qed.

Lemma safe_runRepoCompaction lim dry f :
  safe (@runRepoCompaction Stats W bgs lim dry f).
Proof.
  unfold runRepoCompaction. repeat safe_step; try apply safe_compact_each;
    repeat safe_step.
Qed.

Lemma safe_exec a : safe (@exec Stats W bgs a).
Proof.
  destruct a; simpl; repeat safe_step;
    auto using safe_CompactNext, safe_Run_iter, safe_EnqueueRepo,
      safe_EnqueueAllRepos, safe_runRepoCompaction.
Qed.

Lemma reachable_nil (s : Sys) :
  reachable s →
  state (comp s) = None ∧ exit (comp s) = None ∧ no_state_written (trace s).
Proof.
  induction 1 as [w | a s s' _ IH Hex | s w _ IH]; simpl.
  - split_and!; [done | done |]. intros st Hin. by apply elem_of_nil in Hin.
  - destruct IH as (Hst & Hexit & Htr).
    pose proof (safe_exec a s) as Hk. rewrite Hex in Hk.
    destruct Hk as [He Hs]. destruct (Hs Hst) as [Hst' Htr'].
    split_and!; [done | congruence | auto].
  - done.
Qed.

Lemma Run_iter_no_exit (s s' : Sys) :
  recv_ready (exit (comp s)) = false → Run_iter s ≠ Done Return s'.
Proof.
  intros Hexit. unfold Run_iter. unfold_m. rewrite Hexit.
  destruct (CompactNext s) as [[st [err |]] s1 | s1]; simpl; [| | done].
  - destruct (is_errNoReposToCompact err); [done |]. by destruct st.
  - by destruct st.
Qed.

Lemma Run_no_exit fuel : ∀ s s' : Sys,
  exit (comp s) = None → Run fuel s ≠ Returned s'.
Proof.
  induction fuel as [| fuel IH]; simpl; intros s s' Hexit; [done |].
  pose proof (safe_Run_iter s) as Hk.
  pose proof (Run_iter_no_exit s) as Hne.
  destruct (Run_iter s) as [[|] s1 | s1]; [| | done].
  - destruct Hk as [He _]. apply IH. congruence.
  - exfalso. eapply Hne; [by rewrite Hexit | done].
Qed.

Lemma CompactNext_nil (s : Sys) it rest :
  state (comp s) = None →
  q (c_q (comp s)) = it :: rest →
  CompactNext s =
  Panic {| comp := {| c_q := {| q := rest;
                                members := members (c_q (comp s)) ∖ {[uid it]} |};
                      state := None; exit := exit (comp s) |};
           world := world s; trace := trace s |}.
Proof.
  intros Hst Hq.
  unfold CompactNext, q_Pop, with_queue, Pop, SetState. unfold_m.
  rewrite Hq. simpl. by rewrite Hst.
Qed.

(** C9. [NewCompactor] leaves the status pointer nil, and in every state
    that a process reaches from a new compactor the pointer is still
    nil: each [SetState] call panics on the nil dereference, each
    [CompactNext] call that pops an item panics at its first [SetState]
    with the item already taken off the queue, and no snapshot write
    has ever happened. *)
Theorem new_compactor_never_records (s : Sys) :
  reachable s →
  state (comp s) = None ∧
  no_state_written (trace s) ∧
  (∀ u did stg sts, SetState u did stg sts s = Panic s) ∧
  (∀ it rest, q (c_q (comp s)) = it :: rest →
     ∃ s', CompactNext s = Panic s' ∧
           q (c_q (comp s')) = rest ∧
           state (comp s') = None ∧
           trace s' = trace s).
Proof.
  intros Hreach. destruct (reachable_nil s Hreach) as (Hst & _ & Htr).
  split_and!; [done | done | by intros; apply SetState_nil |].
  intros it rest Hq. eexists. split; [by apply CompactNext_nil |]. done.
Qed.

(** C10. [NewCompactor] leaves the exit channel nil and no entry point
    assigns it, so in every state a process reaches from a new compactor
    the channel is nil, the receive in the [select] of [Run] is not
    ready, no pass through the loop body takes the [return], and
    however many passes [Run] makes it has not returned. *)
Theorem exit_branch_unreachable (s : Sys) :
  reachable s →
  exit (comp s) = None ∧
  (∀ a, match exec a s with
        | Done _ s' => exit (comp s') = exit (comp s)
        | Panic s' => exit (comp s') = exit (comp s)
        end) ∧
  recv_ready (exit (comp s)) = false ∧
  (∀ s', Run_iter s ≠ Done Return s') ∧
  (∀ fuel s', Run fuel s ≠ Returned s').
Proof.
  intros Hreach. destruct (reachable_nil s Hreach) as (_ & Hexit & _).
  split_and!.
  - done.
  - intros a. pose proof (safe_exec a s) as Hk.
    destruct (exec a s); apply Hk.
  - by rewrite Hexit.
  - intros s'. apply Run_iter_no_exit. by rewrite Hexit.
  - intros fuel s'. by apply Run_no_exit.
Qed.

(** ** Bulk enqueueing *)

Lemma enqueue_each_spec f repos : ∀ s : Sys,
  enqueue_each f repos s =
  Done tt {| comp := {| c_q := foldl (λ Q r, Append (Usr r) f Q) (c_q (comp s)) repos;
                        state := state (comp s); exit := exit (comp s) |};
             world := world s; trace := trace s |}.
Proof.
  induction repos as [| r repos IH]; intros s; simpl.
  - by destruct s as [[Q st ex] w t].
  - unfold q_Append, with_queue. unfold_m. simpl. by rewrite IH.
Qed.

Lemma foldl_Append_new_items f repos : ∀ Q,
  let Q' := foldl (λ Q r, Append (Usr r) f Q) Q repos in
  q Q' = q Q ++ new_items f (members Q) repos ∧
  members Q' = list_to_set (Usr <$> repos) ∪ members Q.
Proof.
  induction repos as [| r repos IH]; intros Q; simpl.
  - rewrite app_nil_r. split; [done | set_solver].
  - destruct (IH (Append (Usr r) f Q)) as [Hq Hm]. rewrite Hq, Hm.
    unfold Append. destruct (decide (Usr r ∈ members Q)) as [Hin | Hout]; simpl.
    + split; [done | set_solver].
    + rewrite <- app_assoc. split; [done | set_solver].
Qed.

Lemma new_items_fast f repos : ∀ seen,
  Forall (λ it, fast it = f) (new_items f seen repos).
Proof.
  induction repos as [| r repos IH]; intros seen; simpl; [constructor |].
  destruct (decide (Usr r ∈ seen)); [apply IH |]. constructor; [done | apply IH].
Qed.

Lemma truncate_cut lim (repos : list CompactionTarget) :
  0 < lim < Z.of_nat (length repos) →
  truncate lim repos = take (Z.to_nat lim) repos ∧
  Z.of_nat (length (truncate lim repos)) = lim.
Proof.
  intros Hlim. unfold truncate. rewrite decide_True by lia.
  split; [done |]. rewrite length_take_le by lia. lia.
Qed.

Lemma truncate_keep lim (repos : list CompactionTarget) :
  ¬ (0 < lim < Z.of_nat (length repos)) → truncate lim repos = repos.
Proof. intros Hlim. unfold truncate. rewrite decide_False; [done | lia]. Qed.

(** C4. [EnqueueAllRepos] asks the car store for candidates once, with
    threshold 50 when the caller passed 0 and with the caller's value
    otherwise.  When the call succeeds: if [lim] is positive and smaller
    than the number of candidates, the first [lim] candidates in the
    returned order are kept, otherwise all are; the queue is extended at
    its tail by one entry per kept candidate, in order, carrying the
    given [fast] flag, except that a candidate whose account is already
    queued adds nothing; the old entries stay as they were; and nil is
    returned. *)
Theorem EnqueueAllRepos_spec lim shardCount f (s : Sys) repos w' :
  let asked := if decide (shardCount = 0) then 50 else shardCount in
  let kept := truncate lim repos in
  GetCompactionTargets asked (world s) = (Success repos, w') →
  (shardCount = 0 → asked = 50) ∧
  (0 < lim < Z.of_nat (length repos) →
   kept = take (Z.to_nat lim) repos ∧ Z.of_nat (length kept) = lim) ∧
  (¬ (0 < lim < Z.of_nat (length repos)) → kept = repos) ∧
  ∃ s',
    EnqueueAllRepos lim shardCount f s = Done None s' ∧
    omap targets_call (trace s') = omap targets_call (trace s) ++ [asked] ∧
    world s' = w' ∧
    q (c_q (comp s')) = q (c_q (comp s)) ++ new_items f (members (c_q (comp s))) kept ∧
    Forall (λ it, fast it = f) (new_items f (members (c_q (comp s))) kept) ∧
    members (c_q (comp s')) = list_to_set (Usr <$> kept) ∪ members (c_q (comp s)).
Proof.
  intros asked kept Hget.
  split_and!; [by intros ->; unfold asked | apply truncate_cut | apply truncate_keep |].
  unfold EnqueueAllRepos. fold asked. unfold_m. simpl. rewrite Hget. simpl.
  rewrite enqueue_each_spec. simpl. fold kept.
  destruct (foldl_Append_new_items f kept (c_q (comp s))) as [Hq Hm].
  eexists. split; [done |]. simpl.
  split_and!; [| done | done | apply new_items_fast | done].
  rewrite !omap_app. simpl. by rewrite !app_nil_r.
Qed.

(** ** The batch driver *)

Lemma compact_each_spec f repos : ∀ i results (s : Sys),
  ∃ t,
    compact_each f i repos results s =
      Done (bool_decide (length (attempts f repos (world s)) < length repos)%nat,
            record_successes (attempts f repos (world s)) results)
           {| comp := comp s; world := world_after f repos (world s);
              trace := trace s ++ t |} ∧
    omap compact_call t = (λ a, (Usr a.1, f)) <$> attempts f repos (world s) ∧
    omap shards_failed_log t = omap attempt_failure (attempts f repos (world s)).
Proof.
  induction repos as [| r repos IH]; intros i results s; simpl.
  - exists []. rewrite app_nil_r. by destruct s.
  - unfold_m. destruct (ctx_done (world s)) eqn:Hdone; simpl.
    { exists []. rewrite app_nil_r. split; [| done]. by destruct s. }
    destruct (CompactUserShards (Usr r) f (world s)) as [[st | err] w1] eqn:Hc;
      simpl.
    + destruct (decide (Z.of_nat i `mod` 100 = 0)); simpl;
        match goal with
        | |- context [compact_each f (S i) repos ?m ?s1] =>
            destruct (IH (S i) m s1) as (t & Heq & Hcalls & Hlogs); rewrite Heq
        end; cbn [comp world trace] in *.
      * exists ([ECompact (Usr r) f; EObserve; ELog (LogProgress (Z.of_nat i + 1))] ++ t).
        split; [| by rewrite !omap_app, Hcalls, Hlogs].
        rewrite <- !app_assoc. do 2 f_equal. apply bool_decide_ext. lia.
      * exists ([ECompact (Usr r) f; EObserve] ++ t).
        split; [| by rewrite !omap_app, Hcalls, Hlogs].
        rewrite <- !app_assoc. do 2 f_equal. apply bool_decide_ext. lia.
    + match goal with
      | |- context [compact_each f (S i) repos ?m ?s1] =>
          destruct (IH (S i) m s1) as (t & Heq & Hcalls & Hlogs); rewrite Heq
      end; cbn [comp world trace] in *.
      exists ([ECompact (Usr r) f; ELog (LogShardsFailed (Usr r) err)] ++ t).
      split; [| by rewrite !omap_app, Hcalls, Hlogs].
      rewrite <- !app_assoc. do 2 f_equal. apply bool_decide_ext. lia.
Qed.

Lemma attempts_app f pre rest : ∀ w : W,
  length (attempts f pre w) = length pre →
  attempts f (pre ++ rest) w = attempts f pre w ++ attempts f rest (world_after f pre w) ∧
  world_after f (pre ++ rest) w = world_after f rest (world_after f pre w).
Proof.
  induction pre as [| r pre IH]; intros w Hlen; simpl in *; [done |].
  destruct (ctx_done w); [done |].
  destruct (CompactUserShards (Usr r) f w) as [res w1]. simpl in *.
  destruct (IH w1) as [-> ->]; [lia | done].
Qed.

Lemma attempts_targets f repos : ∀ w : W,
  (attempts f repos w).*1 = take (length (attempts f repos w)) repos.
Proof.
  induction repos as [| r repos IH]; intros w; simpl; [done |].
  destruct (ctx_done w); [done |].
  destruct (CompactUserShards (Usr r) f w) as [res w1]. simpl. by rewrite <- IH.
Qed.

Lemma attempts_short f repos : ∀ w : W,
  (length (attempts f repos w) < length repos)%nat →
  ctx_done (world_after f repos w) = true.
Proof.
  induction repos as [| r repos IH]; intros w; simpl; [lia |].
  destruct (ctx_done w) eqn:Hdone; [done |].
  destruct (CompactUserShards (Usr r) f w) as [res w1]. simpl.
  intros Hlen. apply IH. lia.
Qed.

Lemma record_successes_cons a atts (m : gmap Uid (option Stats)) :
  record_successes (a :: atts) m =
  record_successes atts
    (match a.2 with Success st => <[Usr a.1 := st]> m | Failure _ => m end).
Proof. done. Qed.

Lemma record_successes_origin atts : ∀ (m : gmap Uid (option Stats)) u st,
  record_successes atts m !! u = Some st →
  m !! u = Some st ∨ ∃ r, (r, Success st) ∈ atts ∧ Usr r = u.
Proof.
  induction atts as [| [r res] atts IH]; intros m u st; [by left |].
  rewrite record_successes_cons. simpl. intros Hlk.
  apply IH in Hlk as [Hlk | (r' & Hin & Hu)].
  - destruct res as [st' | err]; [| by left].
    destruct (decide (Usr r = u)) as [<- | Hne].
    + rewrite lookup_insert_eq in Hlk. injection Hlk as ->.
      right. exists r. split; [apply list_elem_of_here | done].
    + rewrite lookup_insert_ne in Hlk by done. by left.
  - right. exists r'. split; [by apply list_elem_of_further | done].
Qed.

Lemma record_successes_keeps atts : ∀ (m : gmap Uid (option Stats)) u,
  is_Some (m !! u) → is_Some (record_successes atts m !! u).
Proof.
  induction atts as [| [r res] atts IH]; intros m u Hm; [done |].
  rewrite record_successes_cons. simpl. apply IH.
  destruct res as [st | err]; [| done].
  destruct (decide (Usr r = u)) as [<- | Hne].
  - rewrite lookup_insert_eq. eauto.
  - by rewrite lookup_insert_ne.
Qed.

Lemma record_successes_present atts : ∀ (m : gmap Uid (option Stats)) r st,
  (r, Success st) ∈ atts → is_Some (record_successes atts m !! Usr r).
Proof.
  induction atts as [| a atts IH]; intros m r st Hin.
  - by apply elem_of_nil in Hin.
  - rewrite record_successes_cons. apply elem_of_cons in Hin as [<- | Hin].
    + simpl. apply record_successes_keeps. rewrite lookup_insert_eq. eauto.
    + by eapply IH.
Qed.

Lemma record_successes_other atts : ∀ (m : gmap Uid (option Stats)) u,
  u ∉ Usr <$> atts.*1 → record_successes atts m !! u = m !! u.
Proof.
  induction atts as [| [r res] atts IH]; intros m u Hu; [done |].
  rewrite record_successes_cons. simpl in *.
  apply not_elem_of_cons in Hu as [Hne Hu]. rewrite IH by done.
  destruct res as [st | err]; [| done]. by rewrite lookup_insert_ne.
Qed.

Lemma record_successes_distinct atts : ∀ (m : gmap Uid (option Stats)) r res,
  NoDup (Usr <$> atts.*1) →
  (r, res) ∈ atts →
  record_successes atts m !! Usr r =
  match res with Success st => Some st | Failure _ => m !! Usr r end.
Proof.
  induction atts as [| [r0 res0] atts IH]; intros m r res Hnd Hin.
  - by apply elem_of_nil in Hin.
  - rewrite record_successes_cons. simpl in *.
    apply NoDup_cons in Hnd as [Hhd Htl].
    apply elem_of_cons in Hin as [Heq | Hin].
    + injection Heq as -> ->. rewrite record_successes_other by done.
      destruct res0 as [st | err]; [by rewrite lookup_insert_eq | done].
    + rewrite (IH _ r res) by done.
      destruct res as [st | err]; [done |].
      destruct res0 as [st0 | err0]; [| done].
      rewrite lookup_insert_ne; [done |]. intros Heq. apply Hhd. rewrite Heq.
      apply list_elem_of_fmap_2. by apply (list_elem_of_fmap_2 fst) in Hin.
Qed.

Lemma attempts_distinct f repos (w : W) :
  NoDup (Usr <$> repos) → NoDup (Usr <$> (attempts f repos w).*1).
Proof.
  rewrite attempts_targets. intros Hnd.
  rewrite <- (take_drop (length (attempts f repos w)) repos) in Hnd.
  rewrite fmap_app in Hnd. by apply NoDup_app in Hnd as [? _].
Qed.

Lemma runRepoCompaction_run lim f (s : Sys) repos w1 :
  GetCompactionTargets 50 (world s) = (Success repos, w1) →
  let targets := truncate lim repos in
  let atts := attempts f targets w1 in
  ∃ t,
    runRepoCompaction lim false f s =
      Done (Some {| Completed := record_successes atts ∅; Targets := targets |}, None)
           {| comp := comp s; world := world_after f targets w1;
              trace := trace s ++ t |} ∧
    omap compact_call t = (λ a, (Usr a.1, f)) <$> atts ∧
    omap shards_failed_log t = omap attempt_failure atts.
Proof.
  intros Hget targets atts.
  unfold runRepoCompaction. unfold_m. simpl. rewrite Hget. simpl.
  fold targets.
  match goal with
  | |- context [compact_each f 0 targets ∅ ?s1] =>
      destruct (compact_each_spec f targets 0%nat ∅ s1) as (t & Heq & Hcalls & Hlogs);
        rewrite Heq
  end; cbn [comp world trace] in *. fold atts in Hcalls, Hlogs. fold atts.
  destruct (bool_decide (length atts < length targets)%nat); simpl.
  - exists ([ELog LogStartCompaction; ETargets 50] ++ t).
    rewrite <- !app_assoc. split; [done |].
    by rewrite !omap_app, Hcalls, Hlogs.
  - exists ([ELog LogStartCompaction; ETargets 50] ++ t
            ++ [ELog (LogTotal (Z.of_nat (length targets)))]).
    rewrite <- !app_assoc. split; [done |].
    rewrite !omap_app, Hcalls, Hlogs. simpl. by rewrite !app_nil_r.
Qed.

(** C5. In a batch run that is not a dry run, let the candidate list,
    after the truncation to [lim], be [pre ++ r :: post], let every
    candidate of [pre] have been processed, and let the context be found
    cancelled at the check before [r].  Then the driver returns at once:
    the error is nil, [Targets] is the whole candidate list and not only
    the processed part (it is the very list the car store returned
    whenever [lim] cuts nothing off), [Completed] holds what the attempts
    on [pre] recorded, and the only compaction calls made are those for
    [pre]. *)
Theorem batch_cancellation lim f (s : Sys) repos w1 pre r post :
  GetCompactionTargets 50 (world s) = (Success repos, w1) →
  truncate lim repos = pre ++ r :: post →
  length (attempts f pre w1) = length pre →
  ctx_done (world_after f pre w1) = true →
  ∃ s',
    runRepoCompaction lim false f s =
      Done (Some {| Completed := record_successes (attempts f pre w1) ∅;
                    Targets := pre ++ r :: post |}, None) s' ∧
    (¬ (0 < lim < Z.of_nat (length repos)) → pre ++ r :: post = repos) ∧
    (attempts f pre w1).*1 = pre ∧
    world s' = world_after f pre w1 ∧
    omap compact_call (trace s') =
      omap compact_call (trace s) ++ ((λ u, (u, f)) <$> (Usr <$> pre)).
Proof.
  intros Hget Hsplit Hpre Hdone.
  destruct (runRepoCompaction_run lim f s repos w1 Hget) as (t & Heq & Hcalls & _).
  rewrite Hsplit in Heq, Hcalls.
  destruct (attempts_app f pre (r :: post) w1 Hpre) as [Hatt Hw].
  simpl in Hatt, Hw. rewrite Hdone in Hatt, Hw. rewrite app_nil_r in Hatt.
  rewrite Hatt, Hw in Heq. rewrite Hatt in Hcalls.
  assert ((attempts f pre w1).*1 = pre) as Hfst.
  { rewrite attempts_targets, Hpre. by rewrite firstn_all. }
  eexists. split; [exact Heq |]. simpl.
  split_and!; [by intros ?; rewrite <- Hsplit, truncate_keep | done | done |].
  rewrite omap_app, Hcalls. f_equal.
  rewrite <- Hfst at 2. rewrite <- !list_fmap_compose. done.
Qed.

Lemma record_successes_last atts : ∀ (m : gmap Uid (option Stats)) u,
  record_successes atts m !! u =
  match last (successes_for u atts) with
  | Some st => Some st
  | None => m !! u
  end.
Proof.
  induction atts as [| [r res] atts IH]; intros m u; [done |].
  rewrite record_successes_cons, IH. unfold successes_for. simpl.
  destruct res as [st | err]; [| done].
  destruct (decide (Usr r = u)) as [<- | Hne]; simpl.
  - rewrite last_cons. destruct (last _); [done |]. by rewrite lookup_insert_eq.
  - destruct (last _); [done |]. by rewrite lookup_insert_ne.
Qed.

(** C6, as amended. In a batch run that is not a dry run the driver
    returns its result with a nil error whatever the compaction calls
    answer.  It calls the compaction once for each candidate in turn, a
    failed call being followed by the call for the next candidate, and
    stops early only when it finds the context cancelled.  Each failed
    call is logged with its account and error.  [Completed] is keyed by
    account: under each account it holds the stats of the last
    successful call for that account, and nothing if no call for that
    account succeeded.  So an entry always stems from a successful call,
    each successful call leaves an entry under its account, and when
    the candidates are pairwise distinct accounts a failed candidate
    has no entry and a successful one has exactly its stats. *)
Theorem batch_failure_isolation lim f (s : Sys) repos w1 :
  GetCompactionTargets 50 (world s) = (Success repos, w1) →
  let targets := truncate lim repos in
  let atts := attempts f targets w1 in
  ∃ s' completed,
    runRepoCompaction lim false f s =
      Done (Some {| Completed := completed; Targets := targets |}, None) s' ∧
    targets = (if decide (0 < lim ∧ lim < Z.of_nat (length repos))
               then take (Z.to_nat lim) repos else repos) ∧
    atts.*1 = take (length atts) targets ∧
    ((length atts < length targets)%nat → ctx_done (world s') = true) ∧
    omap compact_call (trace s') =
      omap compact_call (trace s) ++ ((λ a, (Usr a.1, f)) <$> atts) ∧
    omap shards_failed_log (trace s') =
      omap shards_failed_log (trace s) ++ omap attempt_failure atts ∧
    (∀ u, completed !! u = last (successes_for u atts)) ∧
    (∀ u st, completed !! u = Some st → ∃ r, (r, Success st) ∈ atts ∧ Usr r = u) ∧
    (∀ r st, (r, Success st) ∈ atts → is_Some (completed !! Usr r)) ∧
    (NoDup (Usr <$> targets) →
     ∀ r res, (r, res) ∈ atts →
       completed !! Usr r =
       match res with Success st => Some st | Failure _ => None end).
Proof.
  intros Hget targets atts.
  destruct (runRepoCompaction_run lim f s repos w1 Hget) as (t & Heq & Hcalls & Hlogs).
  fold targets atts in Heq, Hcalls, Hlogs.
  eexists _, _. split; [exact Heq |]. simpl.
  split_and!.
  - done.
  - apply attempts_targets.
  - apply attempts_short.
  - by rewrite omap_app, Hcalls.
  - by rewrite omap_app, Hlogs.
  - intros u. rewrite record_successes_last, lookup_empty.
    by destruct (last (successes_for u atts)).
  - intros u st Hlk. apply record_successes_origin in Hlk as [Hlk | Hlk]; [| done].
    by rewrite lookup_empty in Hlk.
  - intros r st Hin. by eapply record_successes_present.
  - intros Hnd r res Hin.
    rewrite (record_successes_distinct atts ∅ r res); [| by apply attempts_distinct | done].
    destruct res; [done | apply lookup_empty].
Qed.

(** C7. A dry run asks the car store for the candidates and returns
    right after the truncation to [lim]: [Targets] is the candidate
    list, cut down to its first [lim] entries when [lim] is positive
    and smaller than the number of candidates and whole otherwise;
    [Completed] is empty, the error is nil, and the only things done
    are the start log line and the candidate query, so no compaction
    call is made.  When the candidate query fails the error is
    returned, again without any compaction call. *)
Theorem dry_run_no_compaction lim f (s : Sys) :
  match GetCompactionTargets 50 (world s) with
  | (Success repos, w1) =>
      runRepoCompaction lim true f s =
        Done (Some {| Completed := ∅;
                      Targets := if decide (0 < lim ∧ lim < Z.of_nat (length repos))
                                 then take (Z.to_nat lim) repos
                                 else repos |}, None)
             {| comp := comp s; world := w1;
                trace := trace s ++ [ELog LogStartCompaction; ETargets 50] |}
  | (Failure err, w1) =>
      runRepoCompaction lim true f s =
        Done (None, Some (errGetRepos err))
             {| comp := comp s; world := w1;
                trace := trace s ++ [ELog LogStartCompaction; ETargets 50] |}
  end ∧
  match runRepoCompaction lim true f s with
  | Done _ s' => omap compact_call (trace s') = omap compact_call (trace s)
  | Panic _ => False
  end.
Proof.
  unfold runRepoCompaction, truncate. unfold_m. simpl.
  destruct (GetCompactionTargets 50 (world s)) as [[repos | err] w1]; simpl;
    rewrite <- !app_assoc; simpl; (split; [done |]);
    rewrite omap_app; simpl; by rewrite app_nil_r.
Qed.

(** * Further properties *)

(** ** More about the queue *)

Lemma filter_other_uids u (l : list queueItem) :
  u ∉ uid <$> l → filter (λ it, uid it ≠ u) l = l.
Proof.
  induction l as [| it l IH]; simpl; intros Hout; [done |].
  apply not_elem_of_cons in Hout as [Hne Hout].
  rewrite filter_cons_True by done. by rewrite IH.
Qed.

Lemma remove_first_filter u l :
  NoDup (uid <$> l) → remove_first u l = filter (λ it, uid it ≠ u) l.
Proof.
  induction l as [| it l IH]; simpl; intros Hnd; [done |].
  apply NoDup_cons in Hnd as [Hhd Htl].
  destruct (decide (uid it = u)) as [Heq | Hne].
  - rewrite filter_cons_False by (intros Hn; by apply Hn).
    subst u. by rewrite filter_other_uids.
  - rewrite filter_cons_True by done. by rewrite IH.
Qed.

Lemma remove_first_length u l :
  u ∈ uid <$> l → length (remove_first u l) = Nat.pred (length l).
Proof.
  induction l as [| it l IH]; simpl; intros Hin; [by apply elem_of_nil in Hin |].
  destruct (decide (uid it = u)) as [Heq | Hne]; [done |].
  apply elem_of_cons in Hin as [Heq | Hin]; [done |].
  simpl. rewrite IH by done.
  destruct l; [by apply elem_of_nil in Hin | done].
Qed.

Lemma remove_first_snoc u f l :
  u ∉ uid <$> l → remove_first u (l ++ [QueueItem u f]) = l.
Proof.
  induction l as [| it l IH]; simpl; intros Hout.
  - by rewrite decide_True.
  - apply not_elem_of_cons in Hout as [Hne Hout].
    rewrite decide_False by done. by rewrite IH.
Qed.

(** X1. On a queue built by any sequence of operations, [Has] answers
    true exactly for the uids that have an entry in the slice. *)
Theorem Has_iff_entry (ops : list queue_op) (u : Uid) :
  let Q := run_ops ops new_queue in
  Has u Q = true ↔ ∃ f, QueueItem u f ∈ q Q.
Proof.
  intros Q.
  assert (queue_inv Q) as [_ Hmem] by apply queue_inv_run_ops, queue_inv_new.
  unfold Has. rewrite bool_decide_eq_true, Hmem, list_elem_of_fmap. split.
  - intros ([u' f] & -> & Hin). by exists f.
  - intros (f & Hin). by exists (QueueItem u f).
Qed.

(** X2. On a queue built by any sequence of operations, [Remove] deletes
    the entry of the given uid and nothing else: the other entries stay,
    in the same order; the uid is no longer a member; the length drops
    by one when the uid was a member and is unchanged otherwise. *)
Theorem Remove_removes_entry (ops : list queue_op) (u : Uid) :
  let Q := run_ops ops new_queue in
  q (Remove u Q) = filter (λ it, uid it ≠ u) (q Q) ∧
  Has u (Remove u Q) = false ∧
  length (q (Remove u Q)) =
    (if Has u Q then Nat.pred (length (q Q)) else length (q Q)).
Proof.
  intros Q.
  assert (queue_inv Q) as [Hnd Hmem] by apply queue_inv_run_ops, queue_inv_new.
  unfold Remove, Has.
  destruct (decide (u ∈ members Q)) as [Hin | Hout]; simpl.
  - rewrite (bool_decide_eq_true_2 (u ∈ members Q)) by done.
    split_and!.
    + by apply remove_first_filter.
    + apply bool_decide_eq_false_2. set_solver.
    + apply remove_first_length. by apply Hmem.
  - rewrite (bool_decide_eq_false_2 (u ∈ members Q)) by done.
    split_and!; [| done | done].
    rewrite filter_other_uids; [done |]. by rewrite <- Hmem.
Qed.

(** X3. Enqueueing an account that is not queued and removing it again
    gives back the queue one started from, whether it was put at the
    tail or at the head. *)
Theorem Remove_undoes_enqueue (Q : queue) (u : Uid) (f : bool) :
  queue_inv Q →
  u ∉ members Q →
  Remove u (Append u f Q) = Q ∧ Remove u (Prepend u f Q) = Q.
Proof.
  intros [Hnd Hmem] Hout.
  assert (u ∉ uid <$> q Q) as Hout' by by rewrite <- Hmem.
  unfold Append, Prepend. rewrite !decide_False by done.
  unfold Remove. simpl. rewrite !decide_True by set_solver. simpl.
  rewrite ?decide_True by done. rewrite remove_first_snoc by done.
  destruct Q as [ql ms]. simpl in *. split; f_equal; set_solver.
Qed.

(** X4. An account appended to a queue is served after everything that
    was queued before it: popping the queue to the end returns the old
    entries in their order and then the new one. *)
Theorem Append_served_last (Q : queue) (u : Uid) (f : bool) :
  queue_inv Q →
  u ∉ members Q →
  pop_n (S (length (q Q))) (Append u f Q) = (q Q ++ [QueueItem u f], new_queue).
Proof.
  intros HQ Hout.
  pose proof (pop_n_all (Append u f Q) (queue_inv_Append u f Q HQ)) as Hpop.
  unfold Append in *. rewrite decide_False in * by done. simpl in *.
  rewrite length_app in Hpop. simpl in Hpop.
  by rewrite Nat.add_1_r in Hpop.
Qed.

(** X5. Popping ends the deduplication of the popped account: it is no
    longer a member, and an [Append] of the same account right after is
    accepted and puts a new entry at the tail. *)
Theorem Pop_reopens (Q Q' : queue) (it : queueItem) (f : bool) :
  Pop Q = (Some it, Q') →
  q Q = it :: q Q' ∧
  Has (uid it) Q' = false ∧
  q (Append (uid it) f Q') = q Q' ++ [QueueItem (uid it) f].
Proof.
  unfold Pop. destruct (q Q) as [| it0 rest] eqn:Hq; [done |].
  intros [= -> <-]. simpl.
  assert (uid it ∉ members Q ∖ {[uid it]}) as Hout by set_solver.
  split_and!; [done | by apply bool_decide_eq_false_2 |].
  unfold Append. simpl. by rewrite decide_False.
Qed.

(** X6. On a queue built by any sequence of operations, [Pop] finds
    nothing exactly when no account is a member, and then it leaves
    the queue as it is. *)
Theorem Pop_empty_iff (ops : list queue_op) :
  let Q := run_ops ops new_queue in
  (fst (Pop Q) = None ↔ ∀ u, Has u Q = false) ∧
  (fst (Pop Q) = None → snd (Pop Q) = Q).
Proof.
  intros Q.
  assert (queue_inv Q) as [_ Hmem] by apply queue_inv_run_ops, queue_inv_new.
  unfold Pop, Has. destruct (q Q) as [| it rest] eqn:Hq; simpl.
  - split; [| done]. split; [| done]. intros _ u.
    apply bool_decide_eq_false_2. rewrite Hmem. simpl. apply not_elem_of_nil.
  - split; [| done]. split; [done |]. intros Hno.
    specialize (Hno (uid it)). apply bool_decide_eq_false_1 in Hno.
    exfalso. apply Hno, Hmem. simpl. apply list_elem_of_here.
Qed.

(** ** The status tracker *)

(** X7. On an allocated snapshot [SetState] followed by [GetState]
    returns the four values just written, [GetState] changes nothing,
    and neither touches the queue, the exit channel or the outside. *)
Theorem SetState_GetState_roundtrip (s : Sys) cur u did stg sts :
  state (comp s) = Some cur →
  GetState s = Done cur s ∧
  ∃ s1, SetState u did stg sts s = Done tt s1 ∧
        GetState s1 = Done (snapshot u did stg sts) s1 ∧
        c_q (comp s1) = c_q (comp s) ∧
        exit (comp s1) = exit (comp s) ∧
        world s1 = world s.
Proof.
  intros Hst. split.
  - unfold GetState. unfold_m. rewrite Hst. by destruct cur.
  - eexists. split; [by eapply SetState_allocated |].
    split; [| done]. unfold GetState. by unfold_m.
Qed.

(** ** CompactNext *)

(** X8. Whenever the queue is not empty, [CompactNext] takes the head
    entry off the queue and leaves the rest untouched, in every outcome:
    success, failed lookup, failed compaction, or panic.  A failed item
    is not put back. *)
Theorem CompactNext_consumes_head (s : Sys) it rest :
  q (c_q (comp s)) = it :: rest →
  match CompactNext s with
  | Done _ s' =>
      c_q (comp s') = {| q := rest; members := members (c_q (comp s)) ∖ {[uid it]} |}
  | Panic s' =>
      c_q (comp s') = {| q := rest; members := members (c_q (comp s)) ∖ {[uid it]} |}
  end.
Proof.
  intros Hq. destruct (state (comp s)) as [cur |] eqn:Hst.
  - pose proof (CompactNext_allocated s cur it rest Hst Hq) as Hnext.
    simpl in Hnext.
    destruct (lookupUserByUID (uid it) (world s)) as [[user | err] w1];
      [| by rewrite Hnext].
    destruct (CompactUserShards (uid it) (fast it) w1) as [[sts | err] w2];
      by rewrite Hnext.
  - by rewrite (CompactNext_nil s it rest Hst Hq).
Qed.

(** X9. What [CompactNext] returns: exactly one of the state pointer
    and the error is nil; the error is the no-repos sentinel exactly
    when the queue was empty; and a returned state is the stored
    snapshot, in stage [done]. *)
Theorem CompactNext_result_shape (s s' : Sys) st err :
  CompactNext s = Done (st, err) s' →
  (st = None ↔ err ≠ None) ∧
  (∀ e, err = Some e →
        (is_errNoReposToCompact e = true ↔ q (c_q (comp s)) = [])) ∧
  (∀ final, st = Some final →
        state (comp s') = Some final ∧ status final = "done").
Proof.
  destruct (q (c_q (comp s))) as [| it rest] eqn:Hq.
  - rewrite (CompactNext_empty s Hq). intros [= <- <- <-].
    split_and!; [done | by intros e [= <-] | done].
  - destruct (state (comp s)) as [cur |] eqn:Hst;
      [| by rewrite (CompactNext_nil s it rest Hst Hq)].
    pose proof (CompactNext_allocated s cur it rest Hst Hq) as Hnext.
    simpl in Hnext.
    destruct (lookupUserByUID (uid it) (world s)) as [[user | e1] w1].
    + destruct (CompactUserShards (uid it) (fast it) w1) as [[sts | e2] w2];
        rewrite Hnext; intros [= <- <- <-].
      * split_and!; [done | done |]. by intros final [= <-].
      * split_and!; [done | by intros e [= <-] | done].
    + rewrite Hnext. intros [= <- <- <-].
      split_and!; [done | by intros e [= <-] | done].
Qed.

(** ** Run *)

Lemma Run_iter_idle (s : Sys) :
  q (c_q (comp s)) = [] →
  recv_ready (exit (comp s)) = false →
  Run_iter s =
  Done Continue {| comp := comp s; world := world s; trace := trace s ++ idle_pass |}.
Proof.
  intros Hq Hexit. unfold Run_iter. unfold_m.
  rewrite Hexit, (CompactNext_empty s Hq). simpl. by rewrite <- app_assoc.
Qed.

(** X10. While the queue is empty and the exit channel is not ready,
    [Run] only logs and sleeps: after [n] passes it is still looping,
    the compactor and the outside are as they were, and the trace has
    grown by [n] times the warning followed by a sleep of five seconds. *)
Theorem Run_idle (n : nat) (s : Sys) :
  q (c_q (comp s)) = [] →
  recv_ready (exit (comp s)) = false →
  Run n s =
  Looping {| comp := comp s; world := world s;
             trace := trace s ++ concat (replicate n idle_pass) |}.
Proof.
  revert s. induction n as [| n IH]; intros s Hq Hexit; simpl.
  - rewrite app_nil_r. by destruct s.
  - rewrite (Run_iter_idle s Hq Hexit). rewrite IH by done. simpl.
    by rewrite <- !app_assoc.
Qed.



Lemma Run_iter_success (s : Sys) cur it rest :
  state (comp s) = Some cur →
  recv_ready (exit (comp s)) = false →
  q (c_q (comp s)) = it :: rest →
  always_succeeds (uid it) (fast it) →
  ∃ s1 final,
    Run_iter s = Done Continue s1 ∧
    q (c_q (comp s1)) = rest ∧
    state (comp s1) = Some final ∧
    latestUID final = uid it ∧ status final = "done" ∧
    exit (comp s1) = exit (comp s) ∧
    omap lookup_call (trace s1) = omap lookup_call (trace s) ++ [uid it] ∧
    omap compact_call (trace s1) = omap compact_call (trace s) ++ [(uid it, fast it)] ∧
    omap sleep_of (trace s1) = omap sleep_of (trace s).
Proof.
  intros Hst Hexit Hq [Hlook Hcomp].
  pose proof (CompactNext_allocated s cur it rest Hst Hq) as Hnext.
  simpl in Hnext.
  destruct (Hlook (world s)) as (user & w1 & Hl). rewrite Hl in Hnext.
  destruct (Hcomp w1) as (sts & w2 & Hc). rewrite Hc in Hnext.
  unfold Run_iter. unfold_m. rewrite Hexit, Hnext. simpl.
  eexists _, _. split; [done |]. simpl.
  split_and!; try done; rewrite <- !app_assoc, !omap_app; simpl;
    by rewrite ?app_nil_r.
Qed.

(** X12. With an allocated snapshot, the exit channel not ready, and
    lookups and compactions that succeed for the queued accounts, as
    many passes of [Run] as there are entries empty the queue: every
    account is looked up and compacted once, in queue order and with its
    own [fast] flag, and the loop never sleeps in between. *)
Theorem Run_drains_queue (s : Sys) cur :
  state (comp s) = Some cur →
  recv_ready (exit (comp s)) = false →
  Forall (λ it, always_succeeds (uid it) (fast it)) (q (c_q (comp s))) →
  ∃ s',
    Run (length (q (c_q (comp s)))) s = Looping s' ∧
    q (c_q (comp s')) = [] ∧
    omap lookup_call (trace s') =
      omap lookup_call (trace s) ++ (uid <$> q (c_q (comp s))) ∧
    omap compact_call (trace s') =
      omap compact_call (trace s)
      ++ ((λ it, (uid it, fast it)) <$> q (c_q (comp s))) ∧
    omap sleep_of (trace s') = omap sleep_of (trace s).
Proof.
  remember (q (c_q (comp s))) as items eqn:Hitems.
  revert s cur Hitems.
  induction items as [| it rest IH]; intros s cur Hitems Hst Hexit Hall; simpl.
  - exists s. by rewrite !app_nil_r.
  - apply Forall_cons in Hall as [Hit Hrest].
    destruct (Run_iter_success s cur it rest Hst Hexit (eq_sym Hitems) Hit)
      as (s1 & final & Hrun & Hq1 & Hst1 & _ & _ & Hexit1 & Hl1 & Hc1 & Hs1).
    rewrite Hrun.
    destruct (IH s1 final (eq_sym Hq1) Hst1) as (s' & Hrun' & Hq' & Hl' & Hc' & Hs').
    { by rewrite Hexit1. }
    { done. }
    exists s'. split_and!; [done | done | | | congruence].
    + rewrite Hl', Hl1. by rewrite <- app_assoc.
    + rewrite Hc', Hc1. by rewrite <- app_assoc.
Qed.

Lemma Run_nil_never_compacts (fuel : nat) : ∀ s : Sys,
  state (comp s) = None →
  exit (comp s) = None →
  match Run fuel s with
  | Looping s' =>
      omap compact_call (trace s') = omap compact_call (trace s) ∧
      omap lookup_call (trace s') = omap lookup_call (trace s) ∧
      state (comp s') = None
  | Crashed s' =>
      omap compact_call (trace s') = omap compact_call (trace s) ∧
      omap lookup_call (trace s') = omap lookup_call (trace s) ∧
      state (comp s') = None
  | Returned _ => False
  end.
Proof.
  induction fuel as [| fuel IH]; intros s Hst Hexit; simpl; [done |].
  destruct (q (c_q (comp s))) as [| it rest] eqn:Hq.
  - rewrite (Run_iter_idle s Hq) by by rewrite Hexit.
    specialize (IH {| comp := comp s; world := world s;
                      trace := trace s ++ idle_pass |} Hst Hexit).
    simpl in IH. rewrite !omap_app in IH. simpl in IH.
    by rewrite !app_nil_r in IH.
  - unfold Run_iter. unfold_m. rewrite Hexit. simpl.
    by rewrite (CompactNext_nil s it rest Hst Hq).
Qed.

(** X13. A worker started on a compactor built by [NewCompactor] never
    looks up or compacts any account: from every state such a process
    reaches, [Run] is either still looping over an empty queue or has
    crashed, it has not returned, and it has made no lookup and no
    compaction call. *)
Theorem Run_new_compactor_never_compacts (fuel : nat) (s : Sys) :
  reachable s →
  match Run fuel s with
  | Looping s' =>
      omap compact_call (trace s') = omap compact_call (trace s) ∧
      omap lookup_call (trace s') = omap lookup_call (trace s) ∧
      state (comp s') = None
  | Crashed s' =>
      omap compact_call (trace s') = omap compact_call (trace s) ∧
      omap lookup_call (trace s') = omap lookup_call (trace s) ∧
      state (comp s') = None
  | Returned _ => False
  end.
Proof.
  intros Hreach. destruct (reachable_nil s Hreach) as (Hst & Hexit & _).
  by apply Run_nil_never_compacts.
Qed.

(** ** Truncation to the limit *)

(** X24. The truncation keeps a prefix of the candidate list.  With a
    positive limit the prefix has the smaller of the limit and the
    number of candidates as its length; a limit of zero or less cuts
    nothing off; truncating twice is truncating once. *)
Theorem truncate_prefix lim (repos : list CompactionTarget) :
  truncate lim repos `prefix_of` repos ∧
  (0 < lim → length (truncate lim repos) = Nat.min (Z.to_nat lim) (length repos)) ∧
  (lim ≤ 0 → truncate lim repos = repos) ∧
  truncate lim (truncate lim repos) = truncate lim repos.
Proof.
  unfold truncate.
  destruct (decide (0 < lim ∧ lim < Z.of_nat (length repos))) as [Hcut | Hkeep].
  - split_and!.
    + apply prefix_take.
    + intros _. apply length_take.
    + lia.
    + rewrite decide_False; [done |]. rewrite length_take. lia.
  - split_and!; [done | lia | done |]. by rewrite decide_False.
Qed.

Lemma truncate_length_le lim (repos : list CompactionTarget) :
  0 < lim → Z.of_nat (length (truncate lim repos)) ≤ lim.
Proof.
  intros Hpos. unfold truncate.
  destruct (decide (0 < lim ∧ lim < Z.of_nat (length repos))); [| lia].
  rewrite length_take. lia.
Qed.

(** ** More about enqueueing *)

Lemma Has_Append u f Q : Has u (Append u f Q) = true.
Proof.
  unfold Has, Append. apply bool_decide_eq_true_2.
  destruct (decide (u ∈ members Q)); [done |]. simpl. set_solver.
Qed.

(** X14. [EnqueueRepo] never panics, not even on a compactor whose
    status pointer is nil.  Afterwards the account is a member of the
    queue; the status pointer, the exit channel and the outside are
    untouched; and enqueueing the same account once more, with whatever
    flag, leaves the queue as it is. *)
Theorem EnqueueRepo_enqueues (user : User) (f : bool) (s : Sys) :
  ∃ s', EnqueueRepo user f s = Done tt s' ∧
        c_q (comp s') = Append (ID user) f (c_q (comp s)) ∧
        Has (ID user) (c_q (comp s')) = true ∧
        state (comp s') = state (comp s) ∧
        exit (comp s') = exit (comp s) ∧
        world s' = world s ∧
        ∀ f', ∃ s'', EnqueueRepo user f' s' = Done tt s'' ∧
                     c_q (comp s'') = c_q (comp s').
Proof.
  unfold EnqueueRepo, q_Append, with_queue. unfold_m. simpl.
  eexists. split; [done |]. simpl.
  split_and!; [done | apply Has_Append | done | done | done |].
  intros f'. eexists. split; [done |]. simpl.
  apply Append_present. pose proof (Has_Append (ID user) f (c_q (comp s))) as Hhas.
  unfold Has in Hhas. by apply bool_decide_eq_true in Hhas.
Qed.

(** X15. When the car store fails to list candidates, [EnqueueAllRepos]
    returns that error wrapped and does nothing else: the compactor is
    unchanged and the closing log line is not written. *)
Theorem EnqueueAllRepos_listing_failure lim shardCount f (s : Sys) err w' :
  let asked := if decide (shardCount = 0) then 50 else shardCount in
  GetCompactionTargets asked (world s) = (Failure err, w') →
  EnqueueAllRepos lim shardCount f s =
  Done (Some (errGetRepos err))
       {| comp := comp s; world := w';
          trace := trace s ++ [ELog (LogEnqueueAll lim asked f); ETargets asked] |}.
Proof.
  intros asked Hget. unfold EnqueueAllRepos. fold asked. unfold_m. simpl.
  rewrite Hget. simpl. by rewrite <- app_assoc.
Qed.

Lemma new_items_length f repos : ∀ seen,
  (length (new_items f seen repos) ≤ length repos)%nat.
Proof.
  induction repos as [| r repos IH]; intros seen; simpl; [done |].
  destruct (decide (Usr r ∈ seen)); simpl.
  - specialize (IH seen). lia.
  - specialize (IH ({[Usr r]} ∪ seen)). lia.
Qed.

Lemma queue_inv_foldl_Append f repos : ∀ Q,
  queue_inv Q → queue_inv (foldl (λ Q r, Append (Usr r) f Q) Q repos).
Proof.
  induction repos as [| r repos IH]; intros Q HQ; simpl; [done |].
  by apply IH, queue_inv_Append.
Qed.

Lemma foldl_Append_members f repos : ∀ Q,
  (∀ r, r ∈ repos → Usr r ∈ members Q) →
  foldl (λ Q r, Append (Usr r) f Q) Q repos = Q.
Proof.
  induction repos as [| r repos IH]; intros Q Hall; simpl; [done |].
  rewrite Append_present by (apply Hall, list_elem_of_here).
  apply IH. intros r' Hr'. by apply Hall, list_elem_of_further.
Qed.

(** X16. [EnqueueAllRepos] never panics.  It only adds entries at the
    tail of the queue, never removes or reorders one; with a positive
    limit it adds at most [lim] entries; it keeps the queue free of
    duplicates; and it leaves the status pointer and the exit channel
    alone. *)
Theorem EnqueueAllRepos_bounded lim shardCount f (s : Sys) :
  ∃ r s',
    EnqueueAllRepos lim shardCount f s = Done r s' ∧
    q (c_q (comp s)) `prefix_of` q (c_q (comp s')) ∧
    (0 < lim →
     Z.of_nat (length (q (c_q (comp s')))) ≤ Z.of_nat (length (q (c_q (comp s)))) + lim) ∧
    (queue_inv (c_q (comp s)) → queue_inv (c_q (comp s'))) ∧
    state (comp s') = state (comp s) ∧
    exit (comp s') = exit (comp s).
Proof.
  unfold EnqueueAllRepos. unfold_m. simpl.
  destruct (GetCompactionTargets (if decide (shardCount = 0) then 50 else shardCount)
              (world s)) as [[repos | err] w1]; simpl.
  - rewrite enqueue_each_spec. simpl. eexists _, _. split; [done |]. simpl.
    destruct (foldl_Append_new_items f (truncate lim repos) (c_q (comp s)))
      as [Hq _]. rewrite Hq.
    split_and!; [by eexists | | apply queue_inv_foldl_Append | done | done].
    intros Hpos. rewrite length_app.
    pose proof (new_items_length f (truncate lim repos) (members (c_q (comp s)))).
    pose proof (truncate_length_le lim repos Hpos). lia.
  - eexists _, _. split; [done |]. simpl.
    split_and!; [done | lia | done | done | done].
Qed.

(** X17. Calling [EnqueueAllRepos] again while the car store lists the
    same candidates changes nothing in the queue: every kept candidate
    is already a member. *)
Theorem EnqueueAllRepos_again lim shardCount f f' (s s1 : Sys) repos w1 w2 :
  let asked := if decide (shardCount = 0) then 50 else shardCount in
  GetCompactionTargets asked (world s) = (Success repos, w1) →
  GetCompactionTargets asked w1 = (Success repos, w2) →
  EnqueueAllRepos lim shardCount f s = Done None s1 →
  ∃ s2, EnqueueAllRepos lim shardCount f' s1 = Done None s2 ∧
        c_q (comp s2) = c_q (comp s1).
Proof.
  intros asked Hget1 Hget2.
  unfold EnqueueAllRepos. fold asked. unfold_m. simpl.
  rewrite Hget1. simpl. rewrite enqueue_each_spec. simpl.
  intros [= <-]. simpl. rewrite Hget2. simpl.
  rewrite enqueue_each_spec. simpl. eexists. split; [done |]. simpl.
  apply foldl_Append_members. intros r Hr.
  destruct (foldl_Append_new_items f (truncate lim repos) (c_q (comp s)))
    as [_ Hm]. rewrite Hm. apply elem_of_union_l, elem_of_list_to_set.
  by apply list_elem_of_fmap_2.
Qed.

(** ** More about the batch driver *)

Lemma progress_due_nil i n : ¬ progress_due (Stats:=Stats) i [] n.
Proof. intros (j & a & st & Hlk & _). by rewrite lookup_nil in Hlk. Qed.

Lemma progress_due_cons i a atts n :
  progress_due (Stats:=Stats) i (a :: atts) n ↔
  (∃ st, snd a = Success st ∧ Z.of_nat i `mod` 100 = 0 ∧ n = Z.of_nat i + 1) ∨
  progress_due (S i) atts n.
Proof.
  split.
  - intros (j & a' & st & Hlk & Hs & Hmod & Hn). destruct j as [| j]; simpl in Hlk.
    + injection Hlk as <-. rewrite Nat.add_0_r in Hmod, Hn. left. eauto.
    + right. exists j, a', st. rewrite Nat.add_succ_r in Hmod, Hn. done.
  - intros [(st & Hs & Hmod & Hn) | (j & a' & st & Hlk & Hs & Hmod & Hn)].
    + exists 0%nat, a, st. by rewrite Nat.add_0_r.
    + exists (S j), a', st. by rewrite Nat.add_succ_r.
Qed.

Lemma compact_each_metrics f repos : ∀ i results (s : Sys),
  ∃ t,
    compact_each f i repos results s =
      Done (bool_decide (length (attempts f repos (world s)) < length repos)%nat,
            record_successes (attempts f repos (world s)) results)
           {| comp := comp s; world := world_after f repos (world s);
              trace := trace s ++ t |} ∧
    omap observation t = (λ _, tt) <$> omap attempt_success (attempts f repos (world s)) ∧
    omap total_log t = [] ∧
    (∀ n, n ∈ omap progress_log t ↔ progress_due i (attempts f repos (world s)) n).
Proof.
  induction repos as [| r repos IH]; intros i results s; simpl.
  - exists []. rewrite app_nil_r. split; [by destruct s |].
    split_and!; [done | done |]. intros n. split.
    + intros Hin. by apply elem_of_nil in Hin.
    + intros Hdue. by apply progress_due_nil in Hdue.
  - unfold_m. destruct (ctx_done (world s)) eqn:Hdone; simpl.
    { exists []. rewrite app_nil_r. split; [by destruct s |].
      split_and!; [done | done |]. intros n. split.
      + intros Hin. by apply elem_of_nil in Hin.
      + intros Hdue. by apply progress_due_nil in Hdue. }
    destruct (CompactUserShards (Usr r) f (world s)) as [[st | err] w1] eqn:Hc;
      simpl.
    + destruct (decide (Z.of_nat i `mod` 100 = 0)) as [Hmod | Hmod]; simpl;
        match goal with
        | |- context [compact_each f (S i) repos ?m ?s1] =>
            destruct (IH (S i) m s1) as (t & Heq & Hobs & Htot & Hprog); rewrite Heq
        end; cbn [comp world trace] in *.
      * exists ([ECompact (Usr r) f; EObserve; ELog (LogProgress (Z.of_nat i + 1))] ++ t).
        split; [rewrite <- !app_assoc; do 2 f_equal; apply bool_decide_ext; lia |].
        split_and!; [by rewrite omap_app, Hobs | by rewrite omap_app, Htot |].
        intros n. rewrite omap_app, elem_of_app, Hprog, progress_due_cons. simpl.
        rewrite list_elem_of_singleton. split.
        -- intros [-> | Hdue]; [left; eauto | by right].
        -- intros [(st' & _ & _ & ->) | Hdue]; [by left | by right].
      * exists ([ECompact (Usr r) f; EObserve] ++ t).
        split; [rewrite <- !app_assoc; do 2 f_equal; apply bool_decide_ext; lia |].
        split_and!; [by rewrite omap_app, Hobs | by rewrite omap_app, Htot |].
        intros n. rewrite omap_app, elem_of_app, Hprog, progress_due_cons. simpl.
        split.
        -- intros [Hin | Hdue]; [by apply elem_of_nil in Hin | by right].
        -- intros [(st' & _ & Hm & _) | Hdue]; [done | by right].
    + match goal with
      | |- context [compact_each f (S i) repos ?m ?s1] =>
          destruct (IH (S i) m s1) as (t & Heq & Hobs & Htot & Hprog); rewrite Heq
      end; cbn [comp world trace] in *.
      exists ([ECompact (Usr r) f; ELog (LogShardsFailed (Usr r) err)] ++ t).
      split; [rewrite <- !app_assoc; do 2 f_equal; apply bool_decide_ext; lia |].
      split_and!; [by rewrite omap_app, Hobs | by rewrite omap_app, Htot |].
      intros n. rewrite omap_app, elem_of_app, Hprog, progress_due_cons. simpl.
      split.
      * intros [Hin | Hdue]; [by apply elem_of_nil in Hin | by right].
      * intros [(st' & Hs & _) | Hdue]; [done | by right].
Qed.

Lemma runRepoCompaction_metrics lim f (s : Sys) repos w1 :
  GetCompactionTargets 50 (world s) = (Success repos, w1) →
  let targets := truncate lim repos in
  let atts := attempts f targets w1 in
  ∃ t,
    runRepoCompaction lim false f s =
      Done (Some {| Completed := record_successes atts ∅; Targets := targets |}, None)
           {| comp := comp s; world := world_after f targets w1;
              trace := trace s ++ t |} ∧
    omap observation t = (λ _, tt) <$> omap attempt_success atts ∧
    omap total_log t =
      (if decide (length atts = length targets)
       then [Z.of_nat (length targets)] else []) ∧
    (∀ n, n ∈ omap progress_log t ↔ progress_due 0 atts n).
Proof.
  intros Hget targets atts.
  unfold runRepoCompaction. unfold_m. simpl. rewrite Hget. simpl.
  fold targets.
  match goal with
  | |- context [compact_each f 0 targets ∅ ?s1] =>
      destruct (compact_each_metrics f targets 0%nat ∅ s1)
        as (t & Heq & Hobs & Htot & Hprog); rewrite Heq
  end; cbn [comp world trace] in *. fold atts in Hobs, Hprog. fold atts.
  assert (length atts ≤ length targets)%nat as Hle.
  { rewrite <- (length_fmap fst atts). unfold atts.
    rewrite attempts_targets. rewrite length_take. lia. }
  destruct (bool_decide (length atts < length targets)%nat) eqn:Hcancel; simpl.
  - apply bool_decide_eq_true in Hcancel.
    exists ([ELog LogStartCompaction; ETargets 50] ++ t).
    rewrite <- !app_assoc. split; [done |].
    rewrite decide_False by lia.
    split_and!; [by rewrite omap_app | by rewrite omap_app |].
    intros n. rewrite omap_app, elem_of_app, Hprog. simpl.
    rewrite elem_of_nil. tauto.
  - apply bool_decide_eq_false in Hcancel.
    exists ([ELog LogStartCompaction; ETargets 50] ++ t
            ++ [ELog (LogTotal (Z.of_nat (length targets)))]).
    rewrite <- !app_assoc. split; [done |].
    rewrite decide_True by lia.
    split_and!.
    + rewrite !omap_app, Hobs. simpl. by rewrite app_nil_r.
    + rewrite !omap_app, Htot. done.
    + intros n. rewrite !omap_app, !elem_of_app, Hprog. simpl.
      rewrite !elem_of_nil. tauto.
Qed.

Lemma attempt_outcomes_count
    (atts : list (CompactionTarget * result (option Stats))) :
  (length (omap attempt_success atts) + length (omap attempt_failure atts))%nat
  = length atts.
Proof.
  induction atts as [| [r [st | err]] atts IH]; [done | |]; cbn in *; lia.
Qed.

(** X18. What a batch run that is not a dry run adds to the trace: one
    compaction call for each attempted candidate, in order; one
    duration observation for each call that succeeded; one failure log
    line, with the account and the error, for each call that failed.
    So the compaction calls made are as many as the observations and
    the failure lines together. *)
Theorem batch_observations lim f (s : Sys) repos w1 :
  GetCompactionTargets 50 (world s) = (Success repos, w1) →
  let atts := attempts f (truncate lim repos) w1 in
  ∃ r s' t,
    runRepoCompaction lim false f s = Done r s' ∧
    trace s' = trace s ++ t ∧
    omap compact_call t = (λ a, (Usr a.1, f)) <$> atts ∧
    length (omap observation t) = length (omap attempt_success atts) ∧
    omap shards_failed_log t = omap attempt_failure atts ∧
    length (omap compact_call t) =
      (length (omap observation t) + length (omap shards_failed_log t))%nat.
Proof.
  intros Hget atts.
  destruct (runRepoCompaction_run lim f s repos w1 Hget) as (t & Heq & Hcalls & Hlogs).
  destruct (runRepoCompaction_metrics lim f s repos w1 Hget) as (t' & Heq' & Hobs & _).
  fold atts in Heq, Hcalls, Hlogs, Heq', Hobs.
  assert (t' = t) as ->.
  { rewrite Heq in Heq'. injection Heq' as Ht. by apply app_inv_head in Ht. }
  eexists _, _, t. split; [exact Heq |]. simpl.
  assert (length (omap observation t) = length (omap attempt_success atts)) as Hnobs
    by by rewrite Hobs, length_fmap.
  split_and!; [done | done | done | done |].
  rewrite Hcalls, Hnobs, Hlogs, length_fmap. symmetry. apply attempt_outcomes_count.
Qed.

(** X19. In a batch run that is not a dry run a progress line is written
    exactly for the candidates whose index is a multiple of 100 and
    whose compaction was attempted and succeeded; its number is the
    index plus one.  A failing candidate at such an index gets no
    progress line. *)
Theorem batch_progress_lines lim f (s : Sys) repos w1 :
  GetCompactionTargets 50 (world s) = (Success repos, w1) →
  let atts := attempts f (truncate lim repos) w1 in
  ∃ r s',
    runRepoCompaction lim false f s = Done r s' ∧
    ∀ n, n ∈ omap progress_log (trace s') ↔
         n ∈ omap progress_log (trace s) ∨
         ∃ j a st, atts !! j = Some a ∧ snd a = Success st ∧
                   Z.of_nat j `mod` 100 = 0 ∧ n = Z.of_nat j + 1.
Proof.
  intros Hget atts.
  destruct (runRepoCompaction_metrics lim f s repos w1 Hget) as (t & Heq & _ & _ & Hprog).
  fold atts in Heq, Hprog.
  eexists _, _. split; [exact Heq |]. simpl.
  intros n. rewrite omap_app, elem_of_app, Hprog. done.
Qed.

(** X20. The closing line of a batch run is written only when the loop
    ran to the end without finding the context cancelled, and the
    number it reports is the number of candidates, those whose
    compaction failed included. *)
Theorem batch_total_line lim f (s : Sys) repos w1 :
  GetCompactionTargets 50 (world s) = (Success repos, w1) →
  let targets := truncate lim repos in
  let atts := attempts f targets w1 in
  ∃ r s',
    runRepoCompaction lim false f s = Done r s' ∧
    omap total_log (trace s') =
      omap total_log (trace s)
      ++ (if decide (length atts = length targets)
          then [Z.of_nat (length targets)] else []).
Proof.
  intros Hget targets atts.
  destruct (runRepoCompaction_metrics lim f s repos w1 Hget) as (t & Heq & _ & Htot & _).
  fold targets atts in Heq, Htot.
  eexists _, _. split; [exact Heq |]. simpl.
  by rewrite omap_app, Htot.
Qed.

(** X21. [runRepoCompaction] never panics and never touches the
    compactor: queue, status pointer and exit channel are as before.
    Exactly one of its two results is nil, and an error is returned
    only when the car store failed to list the candidates, in which
    case no compaction call was made. *)
Theorem runRepoCompaction_frames lim dry f (s : Sys) :
  ∃ r s',
    runRepoCompaction lim dry f s = Done r s' ∧
    comp s' = comp s ∧
    (fst r = None ↔ snd r ≠ None) ∧
    (∀ e, snd r = Some e →
       ∃ cause w1, GetCompactionTargets 50 (world s) = (Failure cause, w1) ∧
                   e = errGetRepos cause ∧
                   omap compact_call (trace s') = omap compact_call (trace s)).
Proof.
  destruct (GetCompactionTargets 50 (world s)) as [[repos | cause] w1] eqn:Hget.
  - destruct dry.
    + unfold runRepoCompaction. unfold_m. simpl. rewrite Hget. simpl.
      eexists _, _. split; [done |]. by simpl.
    + destruct (runRepoCompaction_run lim f s repos w1 Hget) as (t & Heq & _).
      eexists _, _. split; [exact Heq |]. by simpl.
  - unfold runRepoCompaction. unfold_m. simpl. rewrite Hget. simpl.
    eexists _, _. split; [done |]. simpl.
    split_and!; [done | done |]. intros e [= <-].
    exists cause, w1. split_and!; [done | done |].
    rewrite <- !app_assoc, omap_app. simpl. by rewrite app_nil_r.
Qed.

Lemma record_successes_size atts : ∀ m : gmap Uid (option Stats),
  (size (record_successes atts m) ≤ size m + length atts)%nat.
Proof.
  induction atts as [| [r res] atts IH]; intros m; [simpl; lia |].
  rewrite record_successes_cons. simpl.
  etrans; [apply IH |]. destruct res as [st | err]; [| lia].
  rewrite map_size_insert. destruct (m !! Usr r); unfold id; lia.
Qed.

Lemma attempts_length f repos (w : W) :
  (length (attempts f repos w) ≤ length repos)%nat.
Proof.
  rewrite <- (length_fmap fst (attempts f repos w)), attempts_targets, length_take.
  lia.
Qed.

(** X22. Whatever a batch run returns as its result, its error is nil;
    with a positive limit [Targets] has at most [lim] entries; a dry run
    leaves [Completed] empty; [Completed] only has accounts that are
    among [Targets], and no more entries than there are targets. *)
Theorem runRepoCompaction_result_bounds lim dry f (s s' : Sys) cs err :
  runRepoCompaction lim dry f s = Done (Some cs, err) s' →
  err = None ∧
  (0 < lim → Z.of_nat (length (Targets cs)) ≤ lim) ∧
  (dry = true → Completed cs = ∅) ∧
  (∀ u, is_Some (Completed cs !! u) → u ∈ Usr <$> Targets cs) ∧
  (size (Completed cs) ≤ length (Targets cs))%nat.
Proof.
  destruct (GetCompactionTargets 50 (world s)) as [[repos | cause] w1] eqn:Hget.
  - destruct dry.
    + unfold runRepoCompaction. unfold_m. simpl. rewrite Hget. simpl.
      intros [= <- <- <-]. simpl.
      split_and!; [done | apply truncate_length_le | done | | ].
      * intros u [st Hst]. by rewrite lookup_empty in Hst.
      * rewrite map_size_empty. lia.
    + destruct (runRepoCompaction_run lim f s repos w1 Hget) as (t & Heq & _).
      rewrite Heq. intros [= <- <- <-]. simpl.
      split_and!; [done | apply truncate_length_le | done | |].
      * intros u [st Hst].
        apply record_successes_origin in Hst as [Hst | (r & Hin & <-)];
          [by rewrite lookup_empty in Hst |].
        apply list_elem_of_fmap_2.
        apply (list_elem_of_fmap_2 fst) in Hin. simpl in Hin.
        rewrite attempts_targets in Hin. by eapply subseteq_take.
      * etrans; [apply record_successes_size |]. rewrite map_size_empty. simpl.
        apply attempts_length.
  - unfold runRepoCompaction. unfold_m. simpl. rewrite Hget. simpl. done.
Qed.

(** ** The queue invariant under every entry point *)

Lemma kqi_ret {A} (a : A) : keeps_queue_inv (ret a : M A).
Proof. by intros s. Qed.

Lemma kqi_panic {A} : keeps_queue_inv (@panic Stats W A).
Proof. by intros s. Qed.

Lemma kqi_bind {A B} (m : M A) (k : A → M B) :
  keeps_queue_inv m → (∀ a, keeps_queue_inv (k a)) → keeps_queue_inv (bind m k).
Proof.
  intros Hm Hk s HQ. unfold bind. specialize (Hm s HQ).
  destruct (m s) as [a s1 | s1]; [| done]. by apply Hk.
Qed.

Lemma kqi_get_comp : keeps_queue_inv (@get_comp Stats W).
Proof. by intros s. Qed.

Lemma kqi_get_world : keeps_queue_inv (@get_world Stats W).
Proof. by intros s. Qed.

Lemma kqi_emit e : keeps_queue_inv (@emit Stats W e).
Proof. by intros s. Qed.

Lemma kqi_call {A} e (f : W → result A * W) : keeps_queue_inv (call e f : M (result A)).
Proof. intros s HQ. unfold call. by destruct (f (world s)). Qed.

Lemma kqi_with_queue {A} (f : queue → A * queue) :
  (∀ Q, queue_inv Q → queue_inv (f Q).2) →
  keeps_queue_inv (with_queue f : M A).
Proof.
  intros Hf s HQ. unfold with_queue. unfold_m. specialize (Hf _ HQ).
  by destruct (f (c_q (comp s))).
Qed.

Lemma kqi_SetState u did stg sts : keeps_queue_inv (SetState u did stg sts : M unit).
Proof. intros s HQ. unfold SetState. unfold_m. by destruct (state (comp s)). Qed.

Lemma kqi_GetState : keeps_queue_inv (@GetState Stats W).
Proof. intros s HQ. unfold GetState. unfold_m. by destruct (state (comp s)). Qed.

Lemma kqi_deref p : keeps_queue_inv (@deref Stats W p).
Proof. destruct p; [apply kqi_ret | apply kqi_panic]. Qed.

Ltac kqi_step :=
  match goal with
  | |- keeps_queue_inv (bind _ _) => apply kqi_bind; [| intros ?]
  | |- keeps_queue_inv (ret _) => apply kqi_ret
  | |- keeps_queue_inv panic => apply kqi_panic
  | |- keeps_queue_inv (emit _) => apply kqi_emit
  | |- keeps_queue_inv (call _ _) => apply kqi_call
  | |- keeps_queue_inv get_comp => apply kqi_get_comp
  | |- keeps_queue_inv get_world => apply kqi_get_world
  | |- keeps_queue_inv (with_queue Pop) => apply kqi_with_queue, queue_inv_Pop
  | |- keeps_queue_inv (with_queue _) =>
      apply kqi_with_queue; intros ? ?; simpl;
      auto using queue_inv_Append, queue_inv_apply_op
  | |- keeps_queue_inv (SetState _ _ _ _) => apply kqi_SetState
  | |- keeps_queue_inv GetState => apply kqi_GetState
  | |- keeps_queue_inv (deref _) => apply kqi_deref
  | |- keeps_queue_inv (match ?x with _ => _ end) => destruct x
  end.

Lemma kqi_CompactNext : keeps_queue_inv (@CompactNext Stats W bgs).
Proof. unfold CompactNext, q_Pop. repeat kqi_step. Qed.

Lemma kqi_Run_iter : keeps_queue_inv (@Run_iter Stats W bgs).
Proof.
  unfold Run_iter. repeat kqi_step; try apply kqi_CompactNext; repeat kqi_step.
Qed.

Lemma kqi_enqueue_each f repos : keeps_queue_inv (enqueue_each f repos : M unit).
Proof.
  induction repos as [| r repos IH]; simpl; [apply kqi_ret |].
  unfold q_Append. by repeat kqi_step.
Qed.

Lemma kqi_compact_each f repos :
  ∀ i results, keeps_queue_inv (@compact_each Stats W bgs f i repos results).
Proof.
  induction repos as [| r repos IH]; simpl; intros i results; [apply kqi_ret |].
  repeat kqi_step; try apply IH; repeat kqi_step.
Qed.

Lemma kqi_exec a : keeps_queue_inv (@exec Stats W bgs a).
Proof.
  destruct a; simpl; repeat kqi_step;
    auto using kqi_CompactNext, kqi_Run_iter.
  - unfold EnqueueRepo, q_Append. repeat kqi_step.
  - unfold EnqueueAllRepos. repeat kqi_step; try apply kqi_enqueue_each;
      repeat kqi_step.
  - unfold runRepoCompaction. repeat kqi_step; try apply kqi_compact_each;
      repeat kqi_step.
Qed.

(** X23. In every state that a process reaches from a new compactor,
    through any interleaving of the entry points of the file, the queue
    has no two entries for one account, its membership set is exactly
    the set of queued accounts, and its length is the size of that
    set. *)
Theorem reachable_queue_inv (s : Sys) :
  reachable s →
  queue_inv (c_q (comp s)) ∧
  length (q (c_q (comp s))) = size (members (c_q (comp s))).
Proof.
  intros Hreach.
  assert (queue_inv (c_q (comp s))) as HQ.
  { induction Hreach as [w | a s s' _ IH Hex | s w _ IH]; simpl.
    - apply queue_inv_new.
    - pose proof (kqi_exec a s IH) as Hk. by rewrite Hex in Hk.
    - done. }
  split; [done | by apply queue_inv_length].
Qed.

End Properties.

(** * The model on concrete runs *)

(** C4 on an example: account 1 is already queued with [fast = true];
    with [lim = 2] and threshold 0 the candidates 1 and 2 are kept, the
    query is made with 50, and only account 2 is added. *)
Lemma EnqueueAllRepos_spec_witness :
  let s := demo_sys {| c_q := Prepend 1 true new_queue; state := None; exit := None |} in
  @GetCompactionTargets N nat (demo_bgs 100) 50 (world s)
  = (Success [ {| Usr := 1%N; NumShards := 70 |};
               {| Usr := 2%N; NumShards := 60 |};
               {| Usr := 3%N; NumShards := 55 |} ], 1%nat) ∧
  ∃ s', @EnqueueAllRepos N nat (demo_bgs 100) 2 0 false s = Done None s' ∧
        omap targets_call (trace s') = [50] ∧
        q (c_q (comp s')) = [QueueItem 1 true; QueueItem 2 false].
Proof.
  intros s. split; [reflexivity |].
  destruct (@EnqueueAllRepos_spec N nat (demo_bgs 100) 2 0 false s _ _ eq_refl)
    as (_ & _ & _ & s' & Heq & Hcall & _ & Hq & _).
  exists s'. split_and!; [exact Heq | exact Hcall | rewrite Hq; by vm_compute].
Defined.

(** C5 on the example of the specification: three candidates, the
    context is cancelled while the first is being compacted. *)
Lemma batch_cancellation_witness :
  let c1 := {| Usr := 1%N; NumShards := 70 |} in
  let c2 := {| Usr := 2%N; NumShards := 60 |} in
  let c3 := {| Usr := 3%N; NumShards := 55 |} in
  ∃ s', @runRepoCompaction N nat (demo_bgs 2) 0 false false (init 0%nat) =
          Done (Some {| Completed := <[1%N := Some 10%N]> ∅;
                        Targets := [c1; c2; c3] |}, None) s' ∧
        omap compact_call (trace s') = [(1%N, false)].
Proof.
  intros c1 c2 c3.
  destruct (@batch_cancellation N nat (demo_bgs 2) 0 false (init 0%nat)
              [c1; c2; c3] 1%nat [c1] c2 [c3] eq_refl eq_refl eq_refl eq_refl)
    as (s' & Heq & _ & _ & _ & Hcalls).
  exists s'. split; [exact Heq | exact Hcalls].
Defined.

(** C6 on the example of the specification: the second of three
    candidates fails, the first and the third are recorded. *)
Lemma batch_failure_isolation_witness :
  let c1 := {| Usr := 1%N; NumShards := 70 |} in
  let c2 := {| Usr := 2%N; NumShards := 60 |} in
  let c3 := {| Usr := 3%N; NumShards := 55 |} in
  ∃ s' completed,
    @runRepoCompaction N nat (demo_bgs 100) 0 false false (init 0%nat) =
      Done (Some {| Completed := completed; Targets := [c1; c2; c3] |}, None) s' ∧
    omap compact_call (trace s') = [(1%N, false); (2%N, false); (3%N, false)] ∧
    omap shards_failed_log (trace s') = [(2%N, errExternal "shard unreadable")] ∧
    completed !! 1%N = Some (Some 10%N) ∧
    completed !! 2%N = None ∧
    completed !! 3%N = Some (Some 30%N).
Proof.
  intros c1 c2 c3.
  destruct (@batch_failure_isolation N nat (demo_bgs 100) 0 false (init 0%nat)
              [c1; c2; c3] 1%nat eq_refl)
    as (s' & completed & Heq & _ & _ & _ & Hcalls & Hlogs & _ & _ & _ & Hpoint).
  assert (NoDup (Usr <$> [c1; c2; c3])) as Hnd.
  { simpl. repeat (apply NoDup_cons; split; [set_solver |]). constructor. }
  specialize (Hpoint Hnd).
  exists s', completed.
  split_and!; [exact Heq | exact Hcalls | exact Hlogs | | |].
  - apply (Hpoint c1 (Success (Some 10%N))). vm_compute. apply list_elem_of_here.
  - apply (Hpoint c2 (Failure (errExternal "shard unreadable"))). vm_compute.
    apply list_elem_of_further, list_elem_of_here.
  - apply (Hpoint c3 (Success (Some 30%N))). vm_compute.
    do 2 apply list_elem_of_further. apply list_elem_of_here.
Defined.

(** C9 on an example: a new compactor on which account 1 was enqueued. *)
Lemma new_compactor_never_records_witness :
  let user := {| ID := 1%N; Did := "did:example:alice" |} in
  let s := {| comp := {| c_q := Append 1 false new_queue; state := None; exit := None |};
              world := 0%nat;
              trace := [ELog (LogEnqueueRepo "did:example:alice" 1 false)] |} in
  @exec N nat (demo_bgs 100) (CallEnqueueRepo user false) (init 0%nat) = Done tt s ∧
  state (comp s) = None ∧
  @SetState N nat 1%N "unknown" "getting_user" None s = Panic s ∧
  ∃ s', @CompactNext N nat (demo_bgs 100) s = Panic s' ∧
        q (c_q (comp s')) = [] ∧ state (comp s') = None ∧ trace s' = trace s.
Proof.
  intros user s.
  assert (@exec N nat (demo_bgs 100) (CallEnqueueRepo user false) (init 0%nat)
          = Done tt s) as Hex by (by vm_compute).
  assert (@reachable N nat (demo_bgs 100) s) as Hreach.
  { exact (reach_call _ _ _ (reach_init 0%nat) Hex). }
  destruct (@new_compactor_never_records N nat (demo_bgs 100) s Hreach)
    as (Hnil & _ & Hset & Hnext).
  split_and!; [exact Hex | exact Hnil | apply Hset |].
  exact (Hnext (QueueItem 1 false) [] eq_refl).
Defined.

(** C10 on an example: the same state; three passes of [Run] on a new
    compactor with an empty queue are still looping. *)
Lemma exit_branch_unreachable_witness :
  let user := {| ID := 1%N; Did := "did:example:alice" |} in
  let s := {| comp := {| c_q := Append 1 false new_queue; state := None; exit := None |};
              world := 0%nat;
              trace := [ELog (LogEnqueueRepo "did:example:alice" 1 false)] |} in
  @exec N nat (demo_bgs 100) (CallEnqueueRepo user false) (init 0%nat) = Done tt s ∧
  exit (comp s) = None ∧
  (∀ fuel s', @Run N nat (demo_bgs 100) fuel s ≠ Returned s') ∧
  (∀ s', @Run N nat (demo_bgs 100) 3 (init 0%nat) ≠ Returned s').
Proof.
  intros user s.
  assert (@exec N nat (demo_bgs 100) (CallEnqueueRepo user false) (init 0%nat)
          = Done tt s) as Hex by (by vm_compute).
  assert (@reachable N nat (demo_bgs 100) s) as Hreach.
  { exact (reach_call _ _ _ (reach_init 0%nat) Hex). }
  destruct (@exit_branch_unreachable N nat (demo_bgs 100) s Hreach)
    as (Hnil & _ & _ & _ & Hrun).
  destruct (@exit_branch_unreachable N nat (demo_bgs 100) (init 0%nat)
              (reach_init 0%nat)) as (_ & _ & _ & _ & Hrun0).
  split_and!; [exact Hex | exact Hnil | exact Hrun | exact (Hrun0 3%nat)].
Defined.

(** C1 fails on the code.  First run: the status snapshot is allocated,
    account 9 is queued and its lookup fails.  [CompactNext] records
    [failed_getting_user] and returns the wrapped error together with a
    nil state pointer; [Run] then reads [state.latestUID] through that
    nil pointer and panics: nothing is logged, there is no sleep, and the
    loop is over.  Second run: on a compactor built by [NewCompactor]
    the pass that pops account 1 panics already in [SetState]. *)
Theorem Run_crashes_on_failed_item :
  let s := demo_sys (demo_compactor (Append 9 false new_queue)) in
  let failed := {| latestUID := 9%N; latestDID := "unknown";
                   status := "failed_getting_user"; stats := None |} in
  let s' := {| comp := {| c_q := new_queue; state := Some failed; exit := None |};
               world := 1%nat;
               trace := [ESetState {| latestUID := 9%N; latestDID := "unknown";
                                      status := "getting_user"; stats := None |};
                         ELookup 9; ESetState failed] |} in
  let new := demo_sys {| c_q := Append 1 false new_queue; state := None; exit := None |} in
  @CompactNext N nat (demo_bgs 100) s
  = Done (None, Some (errGetUser 9 (errExternal "user not found"))) s' ∧
  @Run_iter N nat (demo_bgs 100) s = Panic s' ∧
  @Run N nat (demo_bgs 100) 5 s = Crashed s' ∧
  @Run N nat (demo_bgs 100) 5 new
  = Crashed (demo_sys {| c_q := new_queue; state := None; exit := None |}).
Proof. intros s failed s' new. split_and!; by vm_compute. Qed.

(** C2 fails on the code.  On a compactor built by [NewCompactor], with
    account 1 enqueued through [EnqueueRepo], [CompactNext] pops the
    item and panics in its first [SetState]: the status pointer is nil,
    no stage is set, and the item is gone from the queue. *)
Theorem CompactNext_panics_on_new_compactor :
  let user := {| ID := 1%N; Did := "did:example:alice" |} in
  let enqueued := [ELog (LogEnqueueRepo "did:example:alice" 1 false)] in
  let s := {| comp := {| c_q := Append 1 false new_queue; state := None; exit := None |};
              world := 0%nat; trace := enqueued |} in
  @exec N nat (demo_bgs 100) (CallEnqueueRepo user false) (init 0%nat) = Done tt s ∧
  @CompactNext N nat (demo_bgs 100) s
  = Panic {| comp := {| c_q := new_queue; state := None; exit := None |};
             world := 0%nat; trace := enqueued |}.
Proof. intros user enqueued s. split; by vm_compute. Qed.

(** * The further properties on concrete runs *)

Lemma Remove_undoes_enqueue_witness :
  let Q := Append 1 false new_queue in
  Remove 5 (Append 5 true Q) = Q ∧ Remove 5 (Prepend 5 true Q) = Q.
Proof.
  intros Q.
  apply (Remove_undoes_enqueue Q 5 true).
  - apply queue_inv_Append, queue_inv_new.
  - vm_compute. set_solver.
Defined.

Lemma Append_served_last_witness :
  let Q := Append 2 true (Append 1 false new_queue) in
  pop_n 3 (Append 5 false Q)
  = ([QueueItem 1 false; QueueItem 2 true; QueueItem 5 false], new_queue).
Proof.
  intros Q.
  apply (Append_served_last Q 5 false).
  - apply queue_inv_Append, queue_inv_Append, queue_inv_new.
  - vm_compute. set_solver.
Defined.

Lemma Pop_reopens_witness :
  let Q := Append 2 true (Append 1 false new_queue) in
  let Q' := snd (Pop Q) in
  Has 1 Q' = false ∧
  q (Append 1 true Q') = [QueueItem 2 true; QueueItem 1 true].
Proof.
  intros Q Q'.
  destruct (Pop_reopens Q Q' (QueueItem 1 false) true) as (_ & Hhas & Hq).
  - by vm_compute.
  - split; [exact Hhas | exact Hq].
Defined.

Lemma SetState_GetState_roundtrip_witness :
  let s := demo_sys (demo_compactor new_queue) in
  ∃ s1, @SetState N nat 7%N "did:example:bob" "compacting" None s = Done tt s1 ∧
        @GetState N nat s1
        = Done {| latestUID := 7%N; latestDID := "did:example:bob";
                  status := "compacting"; stats := None |} s1.
Proof.
  intros s.
  destruct (@SetState_GetState_roundtrip N nat s _ 7%N "did:example:bob" "compacting"
              None eq_refl) as (_ & s1 & Hset & Hget & _).
  exists s1. split; [exact Hset | exact Hget].
Defined.

Lemma CompactNext_consumes_head_witness :
  let s := demo_sys (demo_compactor (Append 1 false (Append 9 false new_queue))) in
  match @CompactNext N nat (demo_bgs 100) s with
  | Done _ s' => q (c_q (comp s')) = [QueueItem 1 false]
  | Panic s' => q (c_q (comp s')) = [QueueItem 1 false]
  end.
Proof.
  intros s.
  pose proof (@CompactNext_consumes_head N nat (demo_bgs 100) s
                (QueueItem 9 false) [QueueItem 1 false] eq_refl) as Hhead.
  destruct (@CompactNext N nat (demo_bgs 100) s); by rewrite Hhead.
Defined.

Lemma CompactNext_result_shape_witness :
  let s := demo_sys (demo_compactor (Append 1 true new_queue)) in
  ∃ final s',
    @CompactNext N nat (demo_bgs 100) s = Done (Some final, None) s' ∧
    state (comp s') = Some final ∧ status final = "done".
Proof.
  intros s.
  assert (∃ final s', @CompactNext N nat (demo_bgs 100) s = Done (Some final, None) s')
    as (final & s' & Heq) by (eexists _, _; by vm_compute).
  destruct (@CompactNext_result_shape N nat (demo_bgs 100) s s' _ _ Heq)
    as (_ & _ & Hfinal).
  exists final, s'. split; [exact Heq |]. by apply Hfinal.
Defined.

Lemma Run_idle_witness :
  @Run N nat (demo_bgs 100) 2 (init 0%nat)
  = Looping {| comp := NewCompactor; world := 0%nat;
               trace := [ELog LogNoRepos; ESleep 5000; ELog LogNoRepos; ESleep 5000] |}.
Proof.
  exact (@Run_idle N nat (demo_bgs 100) 2 (init 0%nat) eq_refl eq_refl).
Defined.

Lemma Run_drains_queue_witness :
  let s := demo_sys (demo_compactor (Append 3 true (Append 1 false new_queue))) in
  ∃ s', @Run N nat (demo_bgs 100) 2 s = Looping s' ∧
        q (c_q (comp s')) = [] ∧
        omap compact_call (trace s') = [(1%N, false); (3%N, true)] ∧
        omap sleep_of (trace s') = [].
Proof.
  intros s.
  assert (∀ u f, u ≠ 9%N → u ≠ 2%N → @always_succeeds N nat (demo_bgs 100) u f)
    as Hok.
  { intros u f H9 H2. split; intros w; simpl.
    - unfold demo_lookup. rewrite decide_False by done. eauto.
    - unfold demo_compact. rewrite decide_False by done. eauto. }
  destruct (@Run_drains_queue N nat (demo_bgs 100) s _ eq_refl eq_refl)
    as (s' & Hrun & Hq & _ & Hcalls & Hsleep).
  { assert (q (c_q (comp s)) = [QueueItem 1 false; QueueItem 3 true]) as ->
      by (by vm_compute).
    repeat (apply Forall_cons; split; [by apply Hok |]). constructor. }
  exists s'. split_and!; [exact Hrun | exact Hq | exact Hcalls | exact Hsleep].
Defined.

Lemma Run_new_compactor_never_compacts_witness :
  match @Run N nat (demo_bgs 100) 4 (init 0%nat) with
  | Looping s' =>
      omap compact_call (trace s') = [] ∧ omap lookup_call (trace s') = [] ∧
      state (comp s') = None
  | Crashed s' =>
      omap compact_call (trace s') = [] ∧ omap lookup_call (trace s') = [] ∧
      state (comp s') = None
  | Returned _ => False
  end.
Proof.
  exact (@Run_new_compactor_never_compacts N nat (demo_bgs 100) 4 (init 0%nat)
           (reach_init 0%nat)).
Defined.

Lemma EnqueueAllRepos_listing_failure_witness :
  @EnqueueAllRepos N nat demo_bgs_down 2 0 true (init 0%nat)
  = Done (Some (errGetRepos (errExternal "car store unavailable")))
         {| comp := NewCompactor; world := 1%nat;
            trace := [ELog (LogEnqueueAll 2 50 true); ETargets 50] |}.
Proof.
  exact (@EnqueueAllRepos_listing_failure N nat demo_bgs_down 2 0 true (init 0%nat)
           _ _ eq_refl).
Defined.

Lemma EnqueueAllRepos_again_witness :
  ∃ s1 s2,
    @EnqueueAllRepos N nat (demo_bgs 100) 2 0 false (init 0%nat) = Done None s1 ∧
    @EnqueueAllRepos N nat (demo_bgs 100) 2 0 true s1 = Done None s2 ∧
    c_q (comp s2) = c_q (comp s1).
Proof.
  assert (∃ s1, @EnqueueAllRepos N nat (demo_bgs 100) 2 0 false (init 0%nat)
                = Done None s1) as (s1 & Heq1) by (eexists; by vm_compute).
  destruct (@EnqueueAllRepos_again N nat (demo_bgs 100) 2 0 false true (init 0%nat) s1
              demo_candidates 1%nat 2%nat eq_refl eq_refl Heq1) as (s2 & Heq2 & Hsame).
  exists s1, s2. split_and!; [exact Heq1 | exact Heq2 | exact Hsame].
Defined.

Lemma batch_observations_witness :
  ∃ r s' t,
    @runRepoCompaction N nat (demo_bgs 100) 0 false false (init 0%nat) = Done r s' ∧
    trace s' = trace (init 0%nat) ++ t ∧
    omap compact_call t = [(1%N, false); (2%N, false); (3%N, false)] ∧
    length (omap observation t) = 2%nat ∧
    omap shards_failed_log t = [(2%N, errExternal "shard unreadable")].
Proof.
  destruct (@batch_observations N nat (demo_bgs 100) 0 false (init 0%nat)
              demo_candidates 1%nat eq_refl)
    as (r & s' & t & Heq & Htr & Hcalls & Hobs & Hlogs & _).
  exists r, s', t.
  split_and!; [exact Heq | exact Htr | exact Hcalls | exact Hobs | exact Hlogs].
Defined.

Lemma batch_progress_lines_witness :
  ∃ r s', @runRepoCompaction N nat (demo_bgs 100) 0 false false (init 0%nat) = Done r s' ∧
          1 ∈ omap progress_log (trace s').
Proof.
  destruct (@batch_progress_lines N nat (demo_bgs 100) 0 false (init 0%nat)
              demo_candidates 1%nat eq_refl) as (r & s' & Heq & Hprog).
  exists r, s'. split; [exact Heq |]. apply Hprog. right.
  exists 0%nat, ({| Usr := 1%N; NumShards := 70 |}, Success (Some 10%N)), (Some 10%N).
  by vm_compute.
Defined.

Lemma batch_total_line_witness :
  (∃ r s', @runRepoCompaction N nat (demo_bgs 100) 0 false false (init 0%nat) = Done r s' ∧
           omap total_log (trace s') = [3]) ∧
  (∃ r s', @runRepoCompaction N nat (demo_bgs 2) 0 false false (init 0%nat) = Done r s' ∧
           omap total_log (trace s') = []).
Proof.
  split.
  - destruct (@batch_total_line N nat (demo_bgs 100) 0 false (init 0%nat)
                demo_candidates 1%nat eq_refl) as (r & s' & Heq & Htot).
    exists r, s'. split; [exact Heq | exact Htot].
  - destruct (@batch_total_line N nat (demo_bgs 2) 0 false (init 0%nat)
                demo_candidates 1%nat eq_refl) as (r & s' & Heq & Htot).
    exists r, s'. split; [exact Heq | exact Htot].
Defined.

Lemma runRepoCompaction_result_bounds_witness :
  ∃ cs s', @runRepoCompaction N nat (demo_bgs 100) 2 false true (init 0%nat)
           = Done (Some cs, None) s' ∧
           Z.of_nat (length (Targets cs)) ≤ 2 ∧
           (size (Completed cs) ≤ length (Targets cs))%nat.
Proof.
  assert (∃ cs s', @runRepoCompaction N nat (demo_bgs 100) 2 false true (init 0%nat)
                   = Done (Some cs, None) s') as (cs & s' & Heq)
    by (eexists _, _; by vm_compute).
  destruct (@runRepoCompaction_result_bounds N nat (demo_bgs 100) 2 false true
              (init 0%nat) s' cs None Heq) as (_ & Hlim & _ & _ & Hsize).
  exists cs, s'. split_and!; [exact Heq | by apply Hlim | exact Hsize].
Defined.

Lemma reachable_queue_inv_witness :
  let user := {| ID := 1%N; Did := "did:example:alice" |} in
  let s := {| comp := {| c_q := Append 1 false new_queue; state := None; exit := None |};
              world := 0%nat;
              trace := [ELog (LogEnqueueRepo "did:example:alice" 1 false)] |} in
  @exec N nat (demo_bgs 100) (CallEnqueueRepo user false) (init 0%nat) = Done tt s ∧
  queue_inv (c_q (comp s)) ∧
  length (q (c_q (comp s))) = size (members (c_q (comp s))).
Proof.
  intros user s.
  assert (@exec N nat (demo_bgs 100) (CallEnqueueRepo user false) (init 0%nat)
          = Done tt s) as Hex by (by vm_compute).
  split; [exact Hex |].
  apply (@reachable_queue_inv N nat (demo_bgs 100) s).
  exact (reach_call _ _ _ (reach_init 0%nat) Hex).
Defined.

(** C6 as stated fails when two candidates share an account.  The car
    store lists account 1 twice; the first compaction succeeds and the
    second fails.  The second candidate failed, and was logged as
    failed, yet [Completed] has an entry under its account. *)
Lemma batch_failure_isolation_counterexample :
  let c := {| Usr := 1%N; NumShards := 70 |} in
  ∃ s' completed,
    @runRepoCompaction N nat demo_bgs_dup 0 false false (init 0%nat) =
      Done (Some {| Completed := completed; Targets := [c; c] |}, None) s' ∧
    @attempts N nat demo_bgs_dup false [c; c] 1%nat =
      [(c, Success (Some 10%N)); (c, Failure (errExternal "shard unreadable"))] ∧
    omap shards_failed_log (trace s') = [(1%N, errExternal "shard unreadable")] ∧
    completed !! 1%N = Some (Some 10%N) ∧
    ¬ (∀ r err, (r, Failure err) ∈ @attempts N nat demo_bgs_dup false [c; c] 1%nat →
                completed !! Usr r = None).
Proof.
  intros c. eexists _, _. split; [by vm_compute |].
  split_and!; [by vm_compute | by vm_compute | by vm_compute |].
  intros Hnone.
  specialize (Hnone c (errExternal "shard unreadable")).
  assert ((c, Failure (errExternal "shard unreadable"))
          ∈ @attempts N nat demo_bgs_dup false [c; c] 1%nat) as Hin.
  { vm_compute. apply list_elem_of_further, list_elem_of_here. }
  specialize (Hnone Hin). by vm_compute in Hnone.
Qed.

(** C7 on examples: with three candidates a dry run with [lim = 2]
    reports the first two, a dry run with [lim = 0] reports all three;
    neither makes a compaction call. *)
Lemma dry_run_no_compaction_witness :
  @runRepoCompaction N nat (demo_bgs 100) 2 true false (init 0%nat) =
    Done (Some {| Completed := ∅;
                  Targets := [ {| Usr := 1%N; NumShards := 70 |};
                               {| Usr := 2%N; NumShards := 60 |} ] |}, None)
         {| comp := NewCompactor; world := 1%nat;
            trace := [ELog LogStartCompaction; ETargets 50] |} ∧
  @runRepoCompaction N nat (demo_bgs 100) 0 true false (init 0%nat) =
    Done (Some {| Completed := ∅; Targets := demo_candidates |}, None)
         {| comp := NewCompactor; world := 1%nat;
            trace := [ELog LogStartCompaction; ETargets 50] |}.
Proof.
  split.
  - exact (proj1 (@dry_run_no_compaction N nat (demo_bgs 100) 2 false (init 0%nat))).
  - exact (proj1 (@dry_run_no_compaction N nat (demo_bgs 100) 0 false (init 0%nat))).
Defined.

